(** * The connection acceptor of [tcp-server/server.go]

    A shallow embedding of the raw TCP server: [main] and [do] are
    interaction trees over the calls the Go code makes ([net.Listen],
    [Accept], [Read], [Write], [Close], [time.Sleep], the prints,
    [os.Exit] and the [go] statement). The environment answers every call
    and may answer differently depending on all that happened before. A
    goroutine is run on its own by [run_goroutine]; the process, with its
    goroutines interleaved by an arbitrary schedule, by [run_process]. Time
    is not modelled: a blocking call returns when the scheduler picks its
    goroutine, and a sleep is an action like any other.

    The properties are proved first for the handler run on its own, and
    then for every execution of the process, through an invariant stated on
    the control-flow graph of the program, which the interaction trees are
    shown to follow. *)

From Stdlib Require Import List String Ascii ZArith Lia Bool PeanoNat.
From ITree Require Import ITree.
Import ListNotations.
Import ITreeNotations.
Local Open Scope itree_scope.
Local Open Scope string_scope.
Local Open Scope list_scope.
Local Open Scope Z_scope.

(** ** Data *)

(** A [net.Listener] and a [net.Conn] are handles given out by the runtime. *)
Definition Listener := nat.
Definition Conn := nat.

(** A Go [error] value, through its [Error()] text; [nil] is [None]. *)
Definition error := string.

(** [time.Duration] and clock readings, in nanoseconds. *)
Definition Duration := Z.
Definition Second : Duration := 1000000000.

(** Operands of [fmt.Println]. *)
Inductive value : Type :=
| VString (s : string)
| VDuration (d : Duration).

Definition CR : string := String (ascii_of_nat 13) EmptyString.
Definition LF : string := String (ascii_of_nat 10) EmptyString.
Definition CRLF : string := (CR ++ LF)%string.

(** [[]byte(s)] *)
Definition bytes_of (s : string) : list Byte.byte := list_byte_of_string s.

(** The result of [conn.Read(buffer)]: the bytes stored at the front of the
    buffer (their number is Go's [n]) and the error. *)
Record ReadResult : Type := mkRead {
  rd_data : list Byte.byte;
  rd_err : option error
}.

Definition rd_n (r : ReadResult) : nat := List.length (rd_data r).

(** ** Events *)

(** The calls into the runtime and the operating system, indexed by what
    they return to the caller. *)
Variant sysE : Type -> Type :=
| TimeNow : sysE Z
| NetListen (network address : string) : sysE (Listener * option error)
| LAccept (l : Listener) : sysE (Conn * option error)
| ConnRead (c : Conn) (cap : nat) : sysE ReadResult
| ConnWrite (c : Conn) (b : list Byte.byte) : sysE (nat * option error)
| ConnClose (c : Conn) : sysE (option error)
| TimeSleep (d : Duration) : sysE unit
| FmtPrintln (args : list value) : sysE unit
| LogPrint (msg : string) : sysE unit.

(** What the process itself does: [os.Exit], which never returns, and the
    [go do(conn)] statement. *)
Variant procE : Type -> Type :=
| OsExit (code : Z) : procE void
| GoDo (c : Conn) : procE unit.

Definition goE : Type -> Type := sysE +' procE.

(** An event together with the answer it got. *)
Inductive action : Type :=
| ANow (t : Z)
| AListen (network address : string) (l : Listener) (err : option error)
| AAccept (l : Listener) (c : Conn) (err : option error)
| ARead (c : Conn) (cap : nat) (r : ReadResult)
| AWrite (c : Conn) (b : list Byte.byte) (n : nat) (err : option error)
| AClose (c : Conn) (err : option error)
| ASleep (d : Duration)
| APrintln (args : list value)
| ALogPrint (msg : string)
| AExit (code : Z)
| AGo (c : Conn).

Definition act_of {T} (e : sysE T) : T -> action :=
  match e in sysE T return T -> action with
  | TimeNow => fun t => ANow t
  | NetListen n a => fun r => AListen n a (fst r) (snd r)
  | LAccept l => fun r => AAccept l (fst r) (snd r)
  | ConnRead c cap => fun r => ARead c cap r
  | ConnWrite c b => fun r => AWrite c b (fst r) (snd r)
  | ConnClose c => fun r => AClose c r
  | TimeSleep d => fun _ => ASleep d
  | FmtPrintln args => fun _ => APrintln args
  | LogPrint msg => fun _ => ALogPrint msg
  end.

(** The environment: it answers every call, and may look at what happened
    so far. *)
Definition Env : Type := forall T, list action -> sysE T -> T.

(** ** The program *)

Module Server.

(** Calling the runtime, and the process-level statements. *)
Definition sys {T} (e : sysE T) : itree goE T := ITree.trigger (inl1 e).
Definition proc {T} (e : procE T) : itree goE T := ITree.trigger (inr1 e).

(** [log.Fatal(v...)]: print the operands as [fmt.Sprint] formats them
    (string operands are concatenated), then [os.Exit(1)]. *)
Definition log_Fatal {R} (v : list string) : itree goE R :=
  sys (LogPrint (String.concat "" v)) ;;
  z <- proc (OsExit 1) ;;
  match z : void with end.

(** A deferred call. *)
Definition deferred : Type := itree goE unit.

(** Function return: the deferred calls run, last registered first. *)
Fixpoint run_deferred (ds : list deferred) : itree goE unit :=
  match ds with
  | [] => Ret tt
  | d :: ds' => d ;; run_deferred ds'
  end.

(** A function body hands back its stack of deferred calls. *)
Definition func (body : itree goE (list deferred)) : itree goE unit :=
  ds <- body ;; run_deferred ds.

(** The bytes of the response, [server.go] line 40. *)
Definition response : string :=
  ("HTTP/1.1 200 OK" ++ CRLF ++ CRLF ++ "Hey Client!" ++ CRLF)%string.

Definition buffer_size : nat := 1024.

(** [func do(conn net.Conn)], lines 30 to 42. The body ends by handing back
    the deferred [conn.Close()], registered by its last statement. *)
Definition do_body (conn : Conn) : itree goE (list deferred) :=
  (* buffer := make([]byte, 1024) *)
  let buffer := repeat Byte.x00 buffer_size in
  (* _, err := conn.Read(buffer) *)
  r <- sys (ConnRead conn (List.length buffer)) ;;
  match rd_err r with
  | Some err =>
      (* if err != nil { log.Fatal("error reading from connection: ", err) } *)
      log_Fatal ["error reading from connection: "; err]
  | None =>
      (* time.Sleep(time.Second * 8) *)
      sys (TimeSleep (Second * 8)) ;;
      (* conn.Write([]byte("HTTP/1.1 200 OK\r\n\r\nHey Client!\r\n")) *)
      _ <- sys (ConnWrite conn (bytes_of response)) ;;
      (* defer conn.Close() *)
      let defers := [ (_ <- sys (ConnClose conn) ;; Ret tt) ] in
      Ret defers
  end.

Definition do (conn : Conn) : itree goE unit := func (do_body conn).

(** One iteration of the [for] loop of [main], lines 50 to 61. *)
Definition accept_once (start : Z) (l : Listener) : itree goE unit :=
  (* fmt.Println("waiting for a client to connect...") *)
  sys (FmtPrintln [VString "waiting for a client to connect..."]) ;;
  (* conn, err := l.Accept() *)
  r <- sys (LAccept l) ;;
  match snd r with
  | Some err =>
      (* if err != nil { log.Fatal("Error accepting connection: ", err.Error()) } *)
      log_Fatal ["Error accepting connection: "; err]
  | None =>
      (* fmt.Println("client connected at: ", time.Since(start)) *)
      now <- sys TimeNow ;;
      sys (FmtPrintln [VString "client connected at: "; VDuration (now - start)]) ;;
      (* go do(conn) *)
      proc (GoDo (fst r))
  end.

(** [func main()], lines 44 to 62, given the value of the package variable
    [start]. *)
Definition main (start : Z) : itree goE unit :=
  (* l, err := net.Listen("tcp", ":4221") *)
  r <- sys (NetListen "tcp" ":4221") ;;
  match snd r with
  | Some err =>
      (* if err != nil { log.Fatal("Failed binding to port 4221", err.Error()) } *)
      log_Fatal ["Failed binding to port 4221"; err]
  | None =>
      (* for { ... } *)
      ITree.forever (accept_once start (fst r))
  end.

(** The program: package initialisation ([var start = time.Now()], line 28),
    then [main]. *)
Definition program : itree goE unit :=
  start <- sys TimeNow ;;
  main start.

End Server.

(** ** Running one goroutine *)

Inductive outcome (R : Type) : Type :=
| Returned (r : R)
| Exited (code : Z)
| Unfinished.
Arguments Returned {R} r.
Arguments Exited {R} code.
Arguments Unfinished {R}.

(** One step of a goroutine whose remaining code has type [C]. *)
Inductive step_result (C R : Type) : Type :=
| SDone (r : R)
| SSilent (t : C)
| SAct (a : action) (t : C)
| SSpawn (c : Conn) (t : C)
| SExit (code : Z).
Arguments SDone {C R} r.
Arguments SSilent {C R} t.
Arguments SAct {C R} a t.
Arguments SSpawn {C R} c t.
Arguments SExit {C R} code.

Definition step_proc {R T} (e : procE T)
  : (T -> itree goE R) -> step_result (itree goE R) R :=
  match e in procE T return (T -> itree goE R) -> step_result (itree goE R) R with
  | OsExit code => fun _ => SExit code
  | GoDo c => fun k => SSpawn c (k tt)
  end.

Definition step_event {R T} (env : Env) (h : list action) (e : goE T)
  : (T -> itree goE R) -> step_result (itree goE R) R :=
  match e with
  | inl1 s => fun k => let a := env _ h s in SAct (act_of s a) (k a)
  | inr1 p => fun k => step_proc p k
  end.

Definition thread_step {R} (env : Env) (h : list action) (t : itree goE R)
  : step_result (itree goE R) R :=
  match observe t with
  | RetF r => SDone r
  | TauF t' => SSilent t'
  | VisF e k => step_event env h e k
  end.

(** Run a goroutine on its own for at most [fuel] steps. [h] is what
    happened before (most recent action last); the result is what the
    goroutine did, in order, and how it ended. *)
Fixpoint run_goroutine {R} (fuel : nat) (env : Env) (h : list action)
  (t : itree goE R) : list action * outcome R :=
  match fuel with
  | O => ([], Unfinished)
  | S fuel' =>
      match thread_step env h t with
      | SDone r => ([], Returned r)
      | SSilent t' => run_goroutine fuel' env h t'
      | SAct a t' =>
          let (tr, o) := run_goroutine fuel' env (h ++ [a]) t' in (a :: tr, o)
      | SSpawn c t' =>
          let (tr, o) := run_goroutine fuel' env (h ++ [AGo c]) t' in (AGo c :: tr, o)
      | SExit code => ([AExit code], Exited code)
      end
  end.

(** ** The process: goroutines under a scheduler *)

Inductive status : Type :=
| Running
| Terminated (code : Z).

Fixpoint set_nth {A} (i : nat) (x : A) (l : list A) : list A :=
  match l, i with
  | [], _ => []
  | _ :: l', O => x :: l'
  | y :: l', S i' => y :: set_nth i' x l'
  end.

(** A goroutine: the connection it was started for ([None] for the main
    goroutine) and the code it still has to run. *)
Record goroutine (C : Type) : Type := mkG {
  g_conn : option Conn;
  g_code : C
}.
Arguments mkG {C} g_conn g_code.
Arguments g_conn {C} g.
Arguments g_code {C} g.

(** Goroutines are numbered by their position in [threads]; the main
    goroutine is number 0. The log records who did what, in order. *)
Record process (C : Type) : Type := mkP {
  threads : list (goroutine C);
  plog : list (nat * action);
  pstatus : status
}.
Arguments mkP {C} threads plog pstatus.
Arguments threads {C} p.
Arguments plog {C} p.
Arguments pstatus {C} p.

Definition history {C} (p : process C) : list action := map snd (plog p).

(** The scheduler is written once for any representation [C] of the code of
    a goroutine, with [tstep] its one-step function and [spawn c] the code
    of the goroutine that [go do(c)] starts. *)
Section Scheduler.

Context {C : Type}.
Variable tstep : Env -> list action -> C -> step_result C unit.
Variable spawn : Conn -> C.

(** The scheduler lets goroutine [i] take one step. A call is answered by
    the environment; [os.Exit] ends the process, and so does the return of
    the main goroutine; [go do(conn)] adds a goroutine. Nothing runs once
    the process has terminated. *)
Definition step (env : Env) (i : nat) (p : process C) : process C :=
  match pstatus p with
  | Terminated _ => p
  | Running =>
      match nth_error (threads p) i with
      | None => p
      | Some g =>
          let continue t' := set_nth i (mkG (g_conn g) t') (threads p) in
          match tstep env (history p) (g_code g) with
          | SDone _ =>
              match i with
              | O => mkP (threads p) (plog p) (Terminated 0)
              | S _ => p
              end
          | SSilent t' => mkP (continue t') (plog p) Running
          | SAct a t' => mkP (continue t') (plog p ++ [(i, a)]) Running
          | SSpawn c t' =>
              mkP (continue t' ++ [mkG (Some c) (spawn c)])
                  (plog p ++ [(i, AGo c)]) Running
          | SExit code => mkP (threads p) (plog p ++ [(i, AExit code)]) (Terminated code)
          end
      end
  end.

(** [sched] says which goroutine runs at each step. *)
Definition run_process (env : Env) (sched : list nat) (p : process C) : process C :=
  fold_left (fun p i => step env i p) sched p.

End Scheduler.

(** The server: the goroutines run the interaction trees of the program. *)
Definition init : process (itree goE unit) :=
  mkP [mkG None Server.program] [] Running.

Definition server_run (env : Env) (sched : list nat) (p : process (itree goE unit))
  : process (itree goE unit) :=
  run_process thread_step Server.do env sched p.

Definition serve (env : Env) (sched : list nat) : process (itree goE unit) :=
  server_run env sched init.

(** What goroutine [i] did in a log. *)
Definition proj (i : nat) (l : list (nat * action)) : list action :=
  map snd (filter (fun x => Nat.eqb (fst x) i) l).

(** ** What a trace contains *)

(** The byte sequences written to connection [c], in order. *)
Fixpoint written (c : Conn) (tr : list action) : list (list Byte.byte) :=
  match tr with
  | [] => []
  | AWrite c' b _ _ :: tr' =>
      if Nat.eqb c' c then b :: written c tr' else written c tr'
  | _ :: tr' => written c tr'
  end.

(** The reads made on connection [c]: buffer capacity and result. *)
Fixpoint reads (c : Conn) (tr : list action) : list (nat * ReadResult) :=
  match tr with
  | [] => []
  | ARead c' cap r :: tr' =>
      if Nat.eqb c' c then (cap, r) :: reads c tr' else reads c tr'
  | _ :: tr' => reads c tr'
  end.

(** The bytes the program received from connection [c]. *)
Definition received (c : Conn) (tr : list action) : list Byte.byte :=
  List.concat (map (fun x => rd_data (snd x)) (reads c tr)).

Definition is_close (c : Conn) (a : action) : bool :=
  match a with
  | AClose c' _ => Nat.eqb c' c
  | _ => false
  end.

Definition is_report (a : action) : bool :=
  match a with
  | ALogPrint _ | APrintln _ | AExit _ => true
  | _ => false
  end.

(** A call without its answer. *)
Inductive call : Type :=
| CNow
| CListen (network address : string)
| CAccept (l : Listener)
| CRead (c : Conn) (cap : nat)
| CWrite (c : Conn) (b : list Byte.byte)
| CClose (c : Conn)
| CSleep (d : Duration)
| CPrintln (args : list value)
| CLogPrint (msg : string)
| CExit (code : Z)
| CGo (c : Conn).

Definition call_of (a : action) : call :=
  match a with
  | ANow _ => CNow
  | AListen n a _ _ => CListen n a
  | AAccept l _ _ => CAccept l
  | ARead c cap _ => CRead c cap
  | AWrite c b _ _ => CWrite c b
  | AClose c _ => CClose c
  | ASleep d => CSleep d
  | APrintln args => CPrintln args
  | ALogPrint msg => CLogPrint msg
  | AExit code => CExit code
  | AGo c => CGo c
  end.

(** The answer the handler's read gets. *)
Definition read_answer (env : Env) (h : list action) (conn : Conn) : ReadResult :=
  env _ h (ConnRead conn Server.buffer_size).

(** The answers the handler gets on the path where the read succeeds, and
    the trace it leaves there. *)
Definition h_read (env : Env) (h : list action) (conn : Conn) : list action :=
  h ++ [ARead conn Server.buffer_size (read_answer env h conn)].

Definition h_slept (env : Env) (h : list action) (conn : Conn) : list action :=
  h_read env h conn ++ [ASleep (Second * 8)].

Definition write_answer (env : Env) (h : list action) (conn : Conn) : nat * option error :=
  env _ (h_slept env h conn) (ConnWrite conn (bytes_of Server.response)).

Definition h_written (env : Env) (h : list action) (conn : Conn) : list action :=
  h_slept env h conn ++
  [AWrite conn (bytes_of Server.response)
     (fst (write_answer env h conn)) (snd (write_answer env h conn))].

Definition close_answer (env : Env) (h : list action) (conn : Conn) : option error :=
  env _ (h_written env h conn) (ConnClose conn).

Definition success_trace (env : Env) (h : list action) (conn : Conn) : list action :=
  [ ARead conn Server.buffer_size (read_answer env h conn);
    ASleep (Second * 8);
    AWrite conn (bytes_of Server.response)
      (fst (write_answer env h conn)) (snd (write_answer env h conn));
    AClose conn (close_answer env h conn) ].

(** The trace on the path where the read fails with [e]. *)
Definition failure_trace (env : Env) (h : list action) (conn : Conn) (e : error)
  : list action :=
  [ ARead conn Server.buffer_size (read_answer env h conn);
    ALogPrint ("error reading from connection: " ++ e)%string;
    AExit 1 ].

(** The HTTP reading of the response. *)
Definition http_status_line : string := ("HTTP/1.1 200 OK" ++ CRLF)%string.
Definition http_body_text : string := "Hey Client!".

(** Sample environments. In [env_ok data] every call succeeds, the listener
    hands out fresh connections, and a read delivers the front of [data], as
    much as fits the buffer. *)
Definition env_ok (data : list Byte.byte) : Env :=
  fun T h e =>
    match e in sysE T return T with
    | TimeNow => Z.of_nat (List.length h)
    | NetListen _ _ => (7%nat, None)
    | LAccept l => (List.length h, None)
    | ConnRead c cap => mkRead (firstn cap data) None
    | ConnWrite c b => (List.length b, None)
    | ConnClose c => None
    | TimeSleep d => tt
    | FmtPrintln args => tt
    | LogPrint msg => tt
    end.

(** Every read fails with [e]. *)
Definition env_read_fails (e : error) : Env :=
  fun T h c =>
    match c in sysE T return T with
    | ConnRead _ _ => mkRead [] (Some e)
    | c' => env_ok [] _ h c'
    end.

(** Reads succeed, every write fails with [e]. *)
Definition env_write_fails (e : error) : Env :=
  fun T h c =>
    match c in sysE T return T with
    | ConnWrite _ _ => (0%nat, Some e)
    | c' => env_ok [] _ h c'
    end.

(** The bind fails with [e]. *)
Definition env_listen_fails (e : error) : Env :=
  fun T h c =>
    match c in sysE T return T with
    | NetListen _ _ => (0%nat, Some e)
    | c' => env_ok [] _ h c'
    end.

(** Every accept fails with [e]. *)
Definition env_accept_fails (e : error) : Env :=
  fun T h c =>
    match c in sysE T return T with
    | LAccept _ => (0%nat, Some e)
    | c' => env_ok [] _ h c'
    end.

(** ** What a log contains *)

(** The connections the listener handed out (successful accepts), and the
    connections given to [go do], both in order. *)
Fixpoint accepted (l : list (nat * action)) : list Conn :=
  match l with
  | [] => []
  | (_, AAccept _ c None) :: l' => c :: accepted l'
  | _ :: l' => accepted l'
  end.

Fixpoint dispatched (l : list (nat * action)) : list Conn :=
  match l with
  | [] => []
  | (_, AGo c) :: l' => c :: dispatched l'
  | _ :: l' => dispatched l'
  end.

(** The connection a read, a write or a close operates on. *)
Definition conn_of (a : action) : option Conn :=
  match a with
  | ARead c _ _ | AWrite c _ _ _ | AClose c _ => Some c
  | _ => None
  end.

(** The three failures: binding the port, accepting, reading. *)
Definition is_failure (a : action) : bool :=
  match a with
  | AListen _ _ _ (Some _) => true
  | AAccept _ _ (Some _) => true
  | ARead _ _ r => match rd_err r with Some _ => true | None => false end
  | _ => false
  end.

(** What [log.Fatal] prints for each of them. *)
Definition fatal_msg (a : action) : string :=
  match a with
  | AListen _ _ _ (Some e) => "Failed binding to port 4221" ++ e
  | AAccept _ _ (Some e) => "Error accepting connection: " ++ e
  | ARead _ _ r =>
      match rd_err r with
      | Some e => "error reading from connection: " ++ e
      | None => ""
      end
  | _ => ""
  end%string.

(** The first failure in a trace, with what comes after it. *)
Fixpoint after_failure (tr : list action) : option (action * list action) :=
  match tr with
  | [] => None
  | a :: tr' => if is_failure a then Some (a, tr') else after_failure tr'
  end.

Definition is_exit (a : action) : bool :=
  match a with
  | AExit _ => true
  | _ => false
  end.

(** ** Control points *)

(** The points of the program at which a goroutine can stand: those of
    [main] (package initialisation, the bind, the five steps of an
    iteration and the jump back), those of [log.Fatal], and those of
    [do]. *)
Inductive pos : Type :=
| PInit
| PListen (start : Z)
| PLoop (start : Z) (l : Listener)
| PAccept (start : Z) (l : Listener)
| PNow (start : Z) (l : Listener) (c : Conn)
| PPrint (start : Z) (l : Listener) (c : Conn) (now : Z)
| PGo (start : Z) (l : Listener) (c : Conn)
| PTau (start : Z) (l : Listener)
| PFatal (msg : string)
| PExit
| PRead (c : Conn)
| PSleep (c : Conn)
| PWrite (c : Conn)
| PClose (c : Conn)
| PDone.

(** The control-flow graph: what a goroutine standing at a point does next
    and where it stands then. *)
Definition astep (env : Env) (h : list action) (q : pos) : step_result pos unit :=
  match q with
  | PInit => let t := env _ h TimeNow in SAct (ANow t) (PListen t)
  | PListen start =>
      let r := env _ h (NetListen "tcp" ":4221") in
      SAct (AListen "tcp" ":4221" (fst r) (snd r))
        match snd r with
        | Some e => PFatal ("Failed binding to port 4221" ++ e)
        | None => PLoop start (fst r)
        end
  | PLoop start l =>
      SAct (APrintln [VString "waiting for a client to connect..."]) (PAccept start l)
  | PAccept start l =>
      let r := env _ h (LAccept l) in
      SAct (AAccept l (fst r) (snd r))
        match snd r with
        | Some e => PFatal ("Error accepting connection: " ++ e)
        | None => PNow start l (fst r)
        end
  | PNow start l c => let t := env _ h TimeNow in SAct (ANow t) (PPrint start l c t)
  | PPrint start l c now =>
      SAct (APrintln [VString "client connected at: "; VDuration (now - start)])
        (PGo start l c)
  | PGo start l c => SSpawn c (PTau start l)
  | PTau start l => SSilent (PLoop start l)
  | PFatal msg => SAct (ALogPrint msg) PExit
  | PExit => SExit 1
  | PRead c =>
      let r := env _ h (ConnRead c 1024) in
      SAct (ARead c 1024 r)
        match rd_err r with
        | Some e => PFatal ("error reading from connection: " ++ e)
        | None => PSleep c
        end
  | PSleep c => SAct (ASleep 8000000000) (PWrite c)
  | PWrite c =>
      let r := env _ h (ConnWrite c (bytes_of Server.response)) in
      SAct (AWrite c (bytes_of Server.response) (fst r) (snd r)) (PClose c)
  | PClose c => SAct (AClose c (env _ h (ConnClose c))) PDone
  | PDone => SDone tt
  end%string.

(** The same process over control points. *)
Definition ainit : process pos := mkP [mkG None PInit] [] Running.

Definition arun (env : Env) (sched : list nat) (p : process pos) : process pos :=
  run_process astep PRead env sched p.

(** Two steps agree: same kind, same action, and related continuations. *)
Definition step_sim {C1 C2} (rel : C1 -> C2 -> Prop)
  (r1 : step_result C1 unit) (r2 : step_result C2 unit) : Prop :=
  match r1, r2 with
  | SDone _, SDone _ => True
  | SSilent t, SSilent q => rel t q
  | SAct a t, SAct b q => a = b /\ rel t q
  | SSpawn c t, SSpawn d q => c = d /\ rel t q
  | SExit c, SExit d => c = d
  | _, _ => False
  end.

(** The code [t] stands at control point [q]: for [n] steps, and for any
    number of steps, it does what the control-flow graph says. *)
Fixpoint sim (n : nat) (t : itree goE unit) (q : pos) : Prop :=
  match n with
  | O => True
  | S n' => forall env h, step_sim (sim n') (thread_step env h t) (astep env h q)
  end.

Definition at_pos (t : itree goE unit) (q : pos) : Prop := forall n, sim n t q.

Definition grel (g : goroutine (itree goE unit)) (ag : goroutine pos) : Prop :=
  g_conn g = g_conn ag /\ at_pos (g_code g) (g_code ag).

Definition prel (p : process (itree goE unit)) (ap : process pos) : Prop :=
  plog p = plog ap /\ pstatus p = pstatus ap /\ Forall2 grel (threads p) (threads ap).

(** The points of the main goroutine and of a handler for [c]. *)
Definition main_pos (q : pos) : bool :=
  match q with
  | PRead _ | PSleep _ | PWrite _ | PClose _ | PDone => false
  | _ => true
  end.

Definition handler_pos (c : Conn) (q : pos) : bool :=
  match q with
  | PRead c' | PSleep c' | PWrite c' | PClose c' => Nat.eqb c' c
  | PDone | PFatal _ | PExit => true
  | _ => false
  end.

(** The connection the acceptor holds between the accept and the [go]. *)
Definition pending (q : pos) : list Conn :=
  match q with
  | PNow _ _ c | PPrint _ _ c _ | PGo _ _ c => [c]
  | _ => []
  end.

(** Where a goroutine stands, against what it did after its first failure. *)
Definition fail_inv (q : pos) (af : option (action * list action)) (st : status) : Prop :=
  match q with
  | PFatal m => exists a, af = Some (a, []) /\ fatal_msg a = m
  | PExit =>
      exists a,
        af = Some (a, [ALogPrint (fatal_msg a)]) \/
        (af = Some (a, [ALogPrint (fatal_msg a); AExit 1]) /\ st = Terminated 1)
  | _ => af = None
  end.

Definition handler_ok (g : goroutine pos) : Prop :=
  exists c, g_conn g = Some c /\ handler_pos c (g_code g) = true.

(** The invariant of the process. *)
Record ainv (p : process pos) : Prop := mkInv {
  inv_shape : exists q0 hs,
      threads p = mkG None q0 :: hs /\ main_pos q0 = true /\
      Forall handler_ok hs /\
      map g_conn hs = map Some (dispatched (plog p)) /\
      accepted (plog p) = dispatched (plog p) ++ pending q0;
  inv_owner : forall i a, In (i, a) (plog p) ->
      exists g, nth_error (threads p) i = Some g /\
                forall c, conn_of a = Some c -> g_conn g = Some c;
  inv_fail : forall i g, nth_error (threads p) i = Some g ->
      fail_inv (g_code g) (after_failure (proj i (plog p))) (pstatus p);
  inv_status : match pstatus p with
               | Running => forallb (fun x => negb (is_exit (snd x))) (plog p) = true
               | Terminated c => c = 1 /\ exists i pre, plog p = pre ++ [(i, AExit 1)]
               end
}.

(** [l1] is an initial part of [l2]. *)
Definition prefix_of {A} (l1 l2 : list A) : Prop := exists rest, l2 = l1 ++ rest.

(** Where a handler for [c] stands, against what it has done. *)
Definition handler_local (c : Conn) (q : pos) (tr : list action) : Prop :=
  match q with
  | PRead _ => tr = []
  | PSleep _ => exists r, rd_err r = None /\ tr = [ARead c 1024 r]
  | PWrite _ => exists r, rd_err r = None /\ tr = [ARead c 1024 r; ASleep 8000000000]
  | PClose _ =>
      exists r n e, rd_err r = None /\
        tr = [ARead c 1024 r; ASleep 8000000000; AWrite c (bytes_of Server.response) n e]
  | PDone =>
      exists r n e ce, rd_err r = None /\
        tr = [ARead c 1024 r; ASleep 8000000000;
              AWrite c (bytes_of Server.response) n e; AClose c ce]
  | PFatal m =>
      exists r e, rd_err r = Some e /\ tr = [ARead c 1024 r] /\
        m = ("error reading from connection: " ++ e)%string
  | PExit =>
      exists r e, rd_err r = Some e /\
        (tr = [ARead c 1024 r; ALogPrint ("error reading from connection: " ++ e)%string] \/
         tr = [ARead c 1024 r; ALogPrint ("error reading from connection: " ++ e)%string;
               AExit 1])
  | _ => False
  end.

(** Every handler goroutine stands where its own actions say. *)
Definition linv (p : process pos) : Prop :=
  forall i g c, nth_error (threads p) i = Some g -> g_conn g = Some c ->
    handler_local c (g_code g) (proj i (plog p)).

(** Where the acceptor stands after [k] turns, [d] connections dispatched. *)
Definition turns_rel (q : pos) (d k : nat) : Prop :=
  match q with
  | PInit => d = 0%nat /\ k = 0%nat
  | PListen _ => d = 0%nat /\ k = 1%nat
  | PLoop _ _ => k = (2 + 6 * d)%nat
  | PAccept _ _ => k = (3 + 6 * d)%nat
  | PNow _ _ _ => k = (4 + 6 * d)%nat
  | PPrint _ _ _ _ => k = (5 + 6 * d)%nat
  | PGo _ _ _ => k = (6 + 6 * d)%nat
  | PTau _ _ => k = (1 + 6 * d)%nat
  | _ => True
  end.

(** The line the acceptor prints at the top of each iteration. *)
Definition waiting : action := APrintln [VString "waiting for a client to connect..."].

(** The goroutine that [go do(c)] starts, before it has run. *)
Definition handler_for (c : Conn) : goroutine (itree goE unit) := mkG (Some c) (Server.do c).

(** ** The acceptor and the process as a whole *)

(** One complete iteration of the accept loop, for the connection and the
    clock reading in [ct]. *)
Definition iteration (start : Z) (l : Listener) (ct : Conn * Z) : list action :=
  [ waiting;
    AAccept l (fst ct) None;
    ANow (snd ct);
    APrintln [VString "client connected at: "; VDuration (snd ct - start)];
    AGo (fst ct) ].

(** What the acceptor has done when it has bound the port and served the
    connections [its]. *)
Definition served (start : Z) (l : Listener) (its : list (Conn * Z)) : list action :=
  [ANow start; AListen "tcp" ":4221" l None] ++ flat_map (iteration start l) its.

(** The two ways the acceptor gets to [log.Fatal]. *)
Definition fatal_form (tr : list action) (m : string) : Prop :=
  (exists s l e,
      tr = [ANow s; AListen "tcp" ":4221" l (Some e)] /\
      m = ("Failed binding to port 4221" ++ e)%string) \/
  (exists s l its c e,
      tr = served s l its ++ [waiting; AAccept l c (Some e)] /\
      m = ("Error accepting connection: " ++ e)%string).

(** Where the acceptor stands, against what it has done. *)
Definition main_local (q : pos) (tr : list action) : Prop :=
  match q with
  | PInit => tr = []
  | PListen s => tr = [ANow s]
  | PLoop s l | PTau s l => exists its, tr = served s l its
  | PAccept s l => exists its, tr = served s l its ++ [waiting]
  | PNow s l c => exists its, tr = served s l its ++ [waiting; AAccept l c None]
  | PPrint s l c t =>
      exists its, tr = served s l its ++ [waiting; AAccept l c None; ANow t]
  | PGo s l c =>
      exists its t,
        tr = served s l its ++
             [waiting; AAccept l c None; ANow t;
              APrintln [VString "client connected at: "; VDuration (t - s)]]
  | PFatal m => fatal_form tr m
  | PExit =>
      exists tr0 m, fatal_form tr0 m /\
        (tr = tr0 ++ [ALogPrint m] \/ tr = tr0 ++ [ALogPrint m; AExit 1])
  | _ => False
  end.

(** The main goroutine stands where its own actions say. *)
Definition minv (p : process pos) : Prop :=
  forall g, nth_error (threads p) 0 = Some g -> main_local (g_code g) (proj 0 (plog p)).

(** The traces of the acceptor. *)
Definition acceptor_trace (tr : list action) : Prop :=
  tr = [] \/
  exists s,
    tr = [ANow s] \/
    (exists l e tail,
        tr = [ANow s; AListen "tcp" ":4221" l (Some e)] ++ tail /\
        prefix_of tail [ALogPrint ("Failed binding to port 4221" ++ e)%string; AExit 1]) \/
    (exists l its tail,
        tr = served s l its ++ tail /\
        ((exists ct, prefix_of tail (iteration s l ct)) \/
         (exists c e tail',
             tail = [waiting; AAccept l c (Some e)] ++ tail' /\
             prefix_of tail'
               [ALogPrint ("Error accepting connection: " ++ e)%string; AExit 1]))).

(** The calls only [main] makes, and the calls only [do] makes. *)
Definition acceptor_action (a : action) : bool :=
  match a with
  | ANow _ | AListen _ _ _ _ | AAccept _ _ _ | APrintln _ | AGo _ => true
  | _ => false
  end.

Definition handler_action (a : action) : bool :=
  match a with
  | ARead _ _ _ | ASleep _ | AWrite _ _ _ _ | AClose _ _ => true
  | _ => false
  end.

(** Every entry of the log was made by a goroutine of the right kind. *)
Definition rinv (p : process pos) : Prop :=
  forall i a, In (i, a) (plog p) ->
    (acceptor_action a = true -> i = 0%nat) /\
    (handler_action a = true -> i <> 0%nat).

(** The binds in a trace. *)
Definition is_listen (a : action) : bool :=
  match a with
  | AListen _ _ _ _ => true
  | _ => false
  end.

(** An environment in which no bind, accept or read fails. *)
Definition never_fails (env : Env) : Prop :=
  (forall h n a, snd (env _ h (NetListen n a)) = None) /\
  (forall h l, snd (env _ h (LAccept l)) = None) /\
  (forall h c cap, rd_err (env _ h (ConnRead c cap)) = None).

(** The points of [log.Fatal] apart. *)
Definition no_fatal (q : pos) : bool :=
  match q with
  | PFatal _ | PExit => false
  | _ => true
  end.

(** No goroutine is on its way to [os.Exit]. *)
Definition calm (p : process pos) : Prop :=
  pstatus p = Running /\ Forall (fun g => no_fatal (g_code g) = true) (threads p).

(** Whoever exited had met a failure. *)
Definition einv (p : process pos) : Prop :=
  forall i code, In (i, AExit code) (plog p) -> after_failure (proj i (plog p)) <> None.

(** Reads of connection [c] fail with [e]; every other call succeeds. *)
Definition env_read_fails_on (c : Conn) (e : error) : Env :=
  fun T h ev =>
    match ev in sysE T return T with
    | ConnRead c' cap =>
        if Nat.eqb c' c then mkRead [] (Some e) else mkRead [] None
    | ev' => env_ok [] _ h ev'
    end.

(** * The sequential programs of the repository

    [client/client.go], the decorator of [unnamed/part_002] and the
    handlers of [server/server.go] have no loop and no goroutine: each is a
    finite tree of calls, run by [run] against an oracle that answers the
    calls. *)

(** ** Programs as trees of calls *)

Module Prog.

(** A program over the calls [E]: it is done, or makes a call and goes on
    with the answer. *)
Inductive prog (E : Type -> Type) (R : Type) : Type :=
| Done (r : R)
| Call {T : Type} (e : E T) (k : T -> prog E R).
Arguments Done {E R} r.
Arguments Call {E R T} e k.

Fixpoint bind {E R S} (p : prog E R) (f : R -> prog E S) : prog E S :=
  match p with
  | Done r => f r
  | Call e k => Call e (fun x => bind (k x) f)
  end.

Definition perform {E T} (e : E T) : prog E T := Call e Done.

Declare Scope prog_scope.
Delimit Scope prog_scope with prog.
Notation "x <- c1 ;; c2" := (bind c1 (fun x => c2))
  (at level 61, c1 at next level, right associativity) : prog_scope.
Notation "c1 ;; c2" := (bind c1 (fun _ => c2))
  (at level 61, right associativity) : prog_scope.

Section Run.

Context {E : Type -> Type} {A : Type}.

(** [record e x] is the entry of the trace for the call [e] answered [x]. *)
Variable record : forall T, E T -> T -> A.

(** The oracle answers a call, given the trace so far. *)
Definition oracle : Type := forall T, list A -> E T -> T.

(** The calls a program makes, in order, and its result. *)
Fixpoint run {R} (o : oracle) (h : list A) (p : prog E R) : list A * R :=
  match p with
  | Done r => ([], r)
  | Call e k =>
      let x := o _ h e in
      let a := record _ e x in
      let (tr, r) := run o (h ++ [a]) (k x) in
      (a :: tr, r)
  end.

End Run.

End Prog.

(** ** [client/client.go] *)

Module Client.

Import Prog.
Local Open Scope prog_scope.

(** [http.StatusOK] and [http.MethodGet]. *)
Definition StatusOK : Z := 200.
Definition MethodGet : string := "GET".

(** The parts of [http.Request], [http.Response] and [http.Client] that the
    program touches. A response body is a handle. *)
Record Request : Type := mkRequest {
  req_method : string;
  req_url : string;
  req_header : list (string * string)
}.

Definition Body := nat.

Record Response : Type := mkResponse {
  StatusCode : Z;
  Status : string;
  res_body : Body
}.

Record HttpClient : Type := mkClient {
  Timeout : Duration
}.

(** The anonymous struct [data] of lines 36 to 41. *)
Record Todo : Type := mkTodo {
  UserID : Z;
  ID : Z;
  Title : string;
  Completed : bool
}.

(** The library calls of [main]. *)
Variant clientE : Type -> Type :=
| NewRequestWithContext (method url : string) : clientE (Request * option error)
| ClientDo (c : HttpClient) (req : Request) : clientE (Response * option error)
| BodyClose (b : Body) : clientE (option error)
| JsonDecode (b : Body) : clientE (Todo * option error)
| FmtPrintf (format : string) (data : Todo) : clientE unit.

(** A call together with its answer. *)
Inductive call : Type :=
| CNewRequest (method url : string) (req : Request) (err : option error)
| CDo (c : HttpClient) (req : Request) (res : Response) (err : option error)
| CClose (b : Body) (err : option error)
| CDecode (b : Body) (data : Todo) (err : option error)
| CPrintf (format : string) (data : Todo).

Definition call_of (T : Type) (e : clientE T) : T -> call :=
  match e in clientE T return T -> call with
  | NewRequestWithContext m u => fun r => CNewRequest m u (fst r) (snd r)
  | ClientDo c req => fun r => CDo c req (fst r) (snd r)
  | BodyClose b => fun r => CClose b r
  | JsonDecode b => fun r => CDecode b (fst r) (snd r)
  | FmtPrintf f d => fun _ => CPrintf f d
  end.

(** The operand of [panic]: an [error] at lines 18, 25 and 45, a string at
    line 31. *)
Inductive panic_value : Type :=
| PanicError (e : error)
| PanicString (s : string).

(** How a function body ends. *)
Inductive completion : Type :=
| Normal
| Panicking (v : panic_value).

Definition deferred : Type := prog clientE unit.

Fixpoint run_deferred (ds : list deferred) : prog clientE unit :=
  match ds with
  | [] => Done tt
  | d :: ds' => d ;; run_deferred ds'
  end.

(** A function body hands back its stack of deferred calls and how it
    ended; the deferred calls run on return and on panic alike, and a panic
    goes on to the caller. *)
Definition func (body : prog clientE (list deferred * completion))
  : prog clientE completion :=
  r <- body ;; run_deferred (fst r) ;; Done (snd r).

(** [req.Header.Add(key, value)] *)
Definition header_add (key value : string) (req : Request) : Request :=
  mkRequest (req_method req) (req_url req) (req_header req ++ [(key, value)]).

Definition url : string := "https://jsonplaceholder.typicode.com/todos/1".

(** [func main()], lines 11 to 49. *)
Definition main_body : prog clientE (list deferred * completion) :=
  (* client := &http.Client{Timeout: 10 * time.Second} *)
  let client := mkClient (10 * Second) in
  (* req, err := http.NewRequestWithContext(context.Background(), http.MethodGet, url, nil) *)
  r <- perform (NewRequestWithContext MethodGet url) ;;
  match snd r with
  | Some err =>
      (* if err != nil { panic(err) } *)
      Done ([], Panicking (PanicError err))
  | None =>
      (* req.Header.Add("X-My-Client", "LearninGo") *)
      let req := header_add "X-My-Client" "LearninGo" (fst r) in
      (* res, err := client.Do(req) *)
      d <- perform (ClientDo client req) ;;
      match snd d with
      | Some err =>
          (* if err != nil { panic(err) } *)
          Done ([], Panicking (PanicError err))
      | None =>
          let res := fst d in
          (* defer res.Body.Close() *)
          let defers := [ (_ <- perform (BodyClose (res_body res)) ;; Done tt) ] in
          if negb (StatusCode res =? StatusOK) then
            (* panic(fmt.Sprintf("unexpected status: got %v", res.Status)) *)
            Done (defers, Panicking (PanicString ("unexpected status: got " ++ Status res)))
          else
            (* err = json.NewDecoder(res.Body).Decode(&data) *)
            j <- perform (JsonDecode (res_body res)) ;;
            match snd j with
            | Some err =>
                (* if err != nil { panic(err) } *)
                Done (defers, Panicking (PanicError err))
            | None =>
                (* fmt.Printf("%+v\n", data) *)
                perform (FmtPrintf ("%+v" ++ LF) (fst j)) ;;
                Done (defers, Normal)
            end
      end
  end.

Definition main : prog clientE completion := func main_body.

(** One run of the program: the calls made and how [main] ended. *)
Definition client_run (o : oracle (E := clientE)) : list call * completion :=
  run call_of o [] main.

(** What a trace of the client contains. *)
Definition closed (tr : list call) : list Body :=
  flat_map (fun c => match c with CClose b _ => [b] | _ => [] end) tr.

Definition received (tr : list call) : list Response :=
  flat_map (fun c => match c with CDo _ _ res None => [res] | _ => [] end) tr.

Definition sent (tr : list call) : list (HttpClient * Request) :=
  flat_map (fun c => match c with CDo c req _ _ => [(c, req)] | _ => [] end) tr.

Definition printed (tr : list call) : list Todo :=
  flat_map (fun c => match c with CPrintf _ d => [d] | _ => [] end) tr.

Definition decoded (tr : list call) : list (Todo * option error) :=
  flat_map (fun c => match c with CDecode _ d e => [(d, e)] | _ => [] end) tr.

(** The error a call returned, the close apart. *)
Definition call_err (c : call) : option error :=
  match c with
  | CNewRequest _ _ _ e | CDo _ _ _ e | CDecode _ _ e => e
  | _ => None
  end.

(** The five ways through [main]. *)
Inductive client_path : list call -> completion -> Prop :=
| path_no_request req e :
    client_path [CNewRequest MethodGet url req (Some e)] (Panicking (PanicError e))
| path_no_response req0 res e :
    client_path
      [CNewRequest MethodGet url req0 None;
       CDo (mkClient (10 * Second)) (header_add "X-My-Client" "LearninGo" req0) res (Some e)]
      (Panicking (PanicError e))
| path_bad_status req0 res ce :
    StatusCode res <> StatusOK ->
    client_path
      [CNewRequest MethodGet url req0 None;
       CDo (mkClient (10 * Second)) (header_add "X-My-Client" "LearninGo" req0) res None;
       CClose (res_body res) ce]
      (Panicking (PanicString ("unexpected status: got " ++ Status res)))
| path_bad_body req0 res d e ce :
    StatusCode res = StatusOK ->
    client_path
      [CNewRequest MethodGet url req0 None;
       CDo (mkClient (10 * Second)) (header_add "X-My-Client" "LearninGo" req0) res None;
       CDecode (res_body res) d (Some e);
       CClose (res_body res) ce]
      (Panicking (PanicError e))
| path_ok req0 res d ce :
    StatusCode res = StatusOK ->
    client_path
      [CNewRequest MethodGet url req0 None;
       CDo (mkClient (10 * Second)) (header_add "X-My-Client" "LearninGo" req0) res None;
       CDecode (res_body res) d None;
       CPrintf ("%+v" ++ LF) d;
       CClose (res_body res) ce]
      Normal.


End Client.

(** ** The decorator of [unnamed/part_002] *)

Module Decorator.

Import Prog.
Local Open Scope prog_scope.

(** [fmt.Println] is the one call of the program. *)
Variant ioE : Type -> Type :=
| Println (args : list string) : ioE unit.

(** The trace keeps the operands of each [fmt.Println]. *)
Definition line_of (T : Type) (e : ioE T) : T -> list string :=
  match e with
  | Println args => fun _ => args
  end.

(** [type DB interface { StoreToDB(string) error }] *)
Class DB (S : Type) : Type := {
  StoreToDB : S -> string -> prog ioE (option error)
}.

(** [type Store struct{}] and its method, lines 11 to 16. *)
Inductive Store : Type := mkStore.

#[export] Instance Store_DB : DB Store := {
  StoreToDB _ value :=
    (* fmt.Println("Stored to DB", value) *)
    perform (Println ["Stored to DB"; value]) ;;
    (* return nil *)
    Done None
}.

(** [type function func(string)] *)
Definition function : Type := string -> prog ioE unit.

(** [func myFunction(db DB) function], lines 18 to 23. *)
Definition myFunction {S} `{DB S} (db : S) : function :=
  fun s =>
    (* fmt.Println(s) *)
    perform (Println [s]) ;;
    (* db.StoreToDB(s) *)
    _ <- StoreToDB db s ;;
    Done tt.

(** [func Execute(fn function)], lines 33 to 35. *)
Definition Execute (fn : function) : prog ioE unit := fn "FOO BAR BAZ".

(** [func main()], lines 25 to 28. *)
Definition main : prog ioE unit :=
  let s := mkStore in
  Execute (myFunction s).

(** What a program prints, after [h]. *)
Definition output {R} (o : oracle (E := ioE)) (h : list (list string)) (p : prog ioE R)
  : list (list string) :=
  fst (run line_of o h p).

End Decorator.

(** ** The handlers of [server/server.go] *)

Module Web.

Import Prog.
Local Open Scope prog_scope.

(** What a handler reads of [*http.Request]: the method, [r.URL.Path] and
    [r.PathValue]. *)
Record Request : Type := mkRequest {
  Method : string;
  Path : string;
  PathValue : string -> string
}.

(** [http.StatusMethodNotAllowed] *)
Definition StatusMethodNotAllowed : Z := 405.

(** What a handler does with its [http.ResponseWriter]: [w.Header().Set],
    [w.Write] (also through [fmt.Fprintf]), [http.Error] and
    [http.NotFound]. *)
Variant respE : Type -> Type :=
| HeaderSet (key value : string) : respE unit
| Write (body : string) : respE (nat * option error)
| HttpError (msg : string) (code : Z) : respE unit
| HttpNotFound : respE unit.

Inductive wcall : Type :=
| WHeaderSet (key value : string)
| WWrite (body : string) (n : nat) (err : option error)
| WError (msg : string) (code : Z)
| WNotFound.

Definition wcall_of (T : Type) (e : respE T) : T -> wcall :=
  match e in respE T return T -> wcall with
  | HeaderSet k v => fun _ => WHeaderSet k v
  | Write b => fun r => WWrite b (fst r) (snd r)
  | HttpError m c => fun _ => WError m c
  | HttpNotFound => fun _ => WNotFound
  end.

Definition handler : Type := Request -> prog respE unit.

(** [func (h home) ServeHTTP], lines 70 to 77. *)
Definition home_ServeHTTP : handler := fun r =>
  (* if r.URL.Path != "/" { http.NotFound(w, r); return } *)
  if negb (Path r =? "/")%string then
    perform HttpNotFound ;; Done tt
  else
    (* w.Write([]byte("2024 is for Go!")) *)
    _ <- perform (Write "2024 is for Go!") ;; Done tt.

(** [func handleUserById], lines 79 to 87. *)
Definition handleUserById : handler := fun r =>
  (* if r.Method != "GET" { ... return } *)
  if negb (Method r =? "GET")%string then
    (* w.Header().Set("Allow", "GET") *)
    perform (HeaderSet "Allow" "GET") ;;
    (* http.Error(w, "Method not Allowed", http.StatusMethodNotAllowed) *)
    perform (HttpError "Method not Allowed" StatusMethodNotAllowed) ;;
    Done tt
  else
    (* id := r.PathValue("id") *)
    let id := PathValue r "id" in
    (* fmt.Fprintf(w, "Hello user %s", id) *)
    _ <- perform (Write ("Hello user " ++ id)) ;; Done tt.

(** [func handlePostCreate], lines 89 to 98. *)
Definition handlePostCreate : handler := fun r =>
  (* if r.Method != "POST" { ... return } *)
  if negb (Method r =? "POST")%string then
    (* w.Header().Set("Allow", "POST") *)
    perform (HeaderSet "Allow" "POST") ;;
    (* http.Error(w, "Method not Allowed", http.StatusMethodNotAllowed) *)
    perform (HttpError "Method not Allowed" StatusMethodNotAllowed) ;;
    Done tt
  else
    (* w.Write([]byte("You can create new posts here!")) *)
    _ <- perform (Write "You can create new posts here!") ;; Done tt.

Definition quote : string := String (ascii_of_nat 34) EmptyString.

(** [func user], lines 100 to 103. *)
Definition user : handler := fun r =>
  (* w.Header().Set("Content-Type", "application/json") *)
  perform (HeaderSet "Content-Type" "application/json") ;;
  (* w.Write([]byte(`{"name":"Amit"}`)) *)
  _ <- perform (Write ("{" ++ quote ++ "name" ++ quote ++ ":" ++ quote ++ "Amit" ++ quote ++ "}")) ;;
  Done tt.

(** The function literal registered for [GET /posts], lines 116 to 118. *)
Definition posts : handler := fun r =>
  (* w.Write([]byte("Your posts were here...")) *)
  _ <- perform (Write "Your posts were here...") ;; Done tt.

(** The handlers that [main] registers, lines 109 to 120, with their
    patterns. *)
Definition routes : list (string * handler) :=
  [ ("/", home_ServeHTTP);
    ("/user", user);
    ("/user/{id}", handleUserById);
    ("GET /posts", posts);
    ("POST /posts/create", handlePostCreate) ].

(** What a handler does for a request. *)
Definition serve_request (o : oracle (E := respE)) (h : handler) (r : Request) : list wcall :=
  fst (run wcall_of o [] (h r)).

(** The calls that start the response: after any of them the header map
    is no longer sent. *)
Definition commits (c : wcall) : bool :=
  match c with
  | WHeaderSet _ _ => false
  | _ => true
  end.

End Web.

(** * Properties *)

(** ** Running with more fuel *)

Lemma run_goroutine_more R (env : Env) (t : itree goE R) :
  forall fuel h0 tr o,
    run_goroutine fuel env h0 t = (tr, o) -> o <> Unfinished ->
    forall fuel', (fuel <= fuel')%nat -> run_goroutine fuel' env h0 t = (tr, o).
Proof.
  intros fuel. revert t.
  induction fuel as [|fuel IH]; intros t h0 tr o Hrun Ho fuel' Hle.
  - simpl in Hrun. inversion Hrun; subst. congruence.
  - destruct fuel' as [|fuel']; [lia|].
    simpl in *. destruct (thread_step env h0 t) as [r|t'|a t'|c t'|code]; auto.
    + apply IH with (fuel' := fuel') in Hrun; auto; lia.
    + destruct (run_goroutine fuel env (h0 ++ [a]) t') as [tr1 o1] eqn:E.
      inversion Hrun; subst.
      rewrite (IH _ _ _ _ E Ho fuel'); auto; lia.
    + destruct (run_goroutine fuel env (h0 ++ [AGo c]) t') as [tr1 o1] eqn:E.
      inversion Hrun; subst.
      rewrite (IH _ _ _ _ E Ho fuel'); auto; lia.
Qed.

(** Two finished runs of the same goroutine agree. *)
Lemma run_goroutine_agree R (env : Env) (t : itree goE R) h0 f1 f2 tr1 o1 tr2 o2 :
  run_goroutine f1 env h0 t = (tr1, o1) -> o1 <> Unfinished ->
  run_goroutine f2 env h0 t = (tr2, o2) -> o2 <> Unfinished ->
  tr1 = tr2 /\ o1 = o2.
Proof.
  intros H1 N1 H2 N2.
  apply run_goroutine_more with (fuel' := Nat.max f1 f2) in H1; auto; try lia.
  apply run_goroutine_more with (fuel' := Nat.max f1 f2) in H2; auto; try lia.
  rewrite H1 in H2. inversion H2; auto.
Qed.

(** ** The handler on its own *)

Section Handler.

Variable env : Env.
Variable h : list action.
Variable conn : Conn.

Ltac unfold_run :=
  unfold success_trace, failure_trace, close_answer, h_written, write_answer,
    h_slept, h_read, read_answer, Server.do, Server.func, Server.do_body,
    Server.buffer_size in *.

Lemma do_run_ok_5 :
  rd_err (read_answer env h conn) = None ->
  run_goroutine 5 env h (Server.do conn) = (success_trace env h conn, Returned tt).
Proof.
  intros Hr. unfold_run. cbn in *.
  destruct (env ReadResult h (ConnRead conn 1024)) as [data err].
  cbn in Hr. subst err. reflexivity.
Qed.

Lemma do_run_err_3 e :
  rd_err (read_answer env h conn) = Some e ->
  run_goroutine 3 env h (Server.do conn) = (failure_trace env h conn e, Exited 1).
Proof.
  intros Hr. unfold_run. cbn in *.
  destruct (env ReadResult h (ConnRead conn 1024)) as [data err].
  cbn in Hr. subst err. reflexivity.
Qed.

Lemma do_body_run_ok_4 :
  rd_err (read_answer env h conn) = None ->
  run_goroutine 4 env h (Server.do_body conn) =
    (firstn 3 (success_trace env h conn),
     Returned [ (_ <- Server.sys (ConnClose conn) ;; Ret tt) ]).
Proof.
  intros Hr. unfold_run. cbn in *.
  destruct (env ReadResult h (ConnRead conn 1024)) as [data err].
  cbn in Hr. subst err. reflexivity.
Qed.

Lemma do_body_run_err_3 e :
  rd_err (read_answer env h conn) = Some e ->
  run_goroutine 3 env h (Server.do_body conn) = (failure_trace env h conn e, Exited 1).
Proof.
  intros Hr. unfold_run. cbn in *.
  destruct (env ReadResult h (ConnRead conn 1024)) as [data err].
  cbn in Hr. subst err. reflexivity.
Qed.

Lemma do_run_ok fuel :
  rd_err (read_answer env h conn) = None -> (5 <= fuel)%nat ->
  run_goroutine fuel env h (Server.do conn) = (success_trace env h conn, Returned tt).
Proof.
  intros Hr Hf. eapply run_goroutine_more; [apply do_run_ok_5; auto| discriminate | lia].
Qed.

Lemma do_run_err fuel e :
  rd_err (read_answer env h conn) = Some e -> (3 <= fuel)%nat ->
  run_goroutine fuel env h (Server.do conn) = (failure_trace env h conn e, Exited 1).
Proof.
  intros Hr Hf. eapply run_goroutine_more; [apply do_run_err_3; auto| discriminate | lia].
Qed.

(** A finished run of the handler is one of the two. *)
Lemma do_run_finished fuel tr o :
  run_goroutine fuel env h (Server.do conn) = (tr, o) -> o <> Unfinished ->
  (rd_err (read_answer env h conn) = None /\
   tr = success_trace env h conn /\ o = Returned tt) \/
  (exists e, rd_err (read_answer env h conn) = Some e /\
   tr = failure_trace env h conn e /\ o = Exited 1).
Proof.
  intros Hrun Ho.
  destruct (rd_err (read_answer env h conn)) as [e|] eqn:Hr.
  - right. exists e. split; auto.
    edestruct run_goroutine_agree as [E1 E2];
      [exact Hrun | exact Ho | exact (do_run_err_3 _ Hr) | discriminate | subst; auto].
  - left. split; auto.
    edestruct run_goroutine_agree as [E1 E2];
      [exact Hrun | exact Ho | exact (do_run_ok_5 Hr) | discriminate | subst; auto].
Qed.

End Handler.

(** ** The program follows its control-flow graph *)

Ltac sim_next n :=
  destruct n as [|n]; [exact I | intros ?env ?h; cbn].

Ltac case_answer :=
  match goal with
  | |- context [snd (?env ?T ?h ?c)] => destruct (env T h c) as [? [?|]]
  | |- context [rd_err (?env ?T ?h ?c)] => destruct (env T h c) as [? [?|]]
  end; cbn; (split; [reflexivity|]).

Ltac sim_fatal n :=
  sim_next n; split; [reflexivity|]; sim_next n; reflexivity.

Lemma do_sim n c : sim n (Server.do c) (PRead c).
Proof.
  sim_next n. case_answer.
  - sim_fatal n.
  - sim_next n. split; [reflexivity|].
    sim_next n. split; [reflexivity|].
    sim_next n. split; [reflexivity|].
    sim_next n. exact I.
Qed.

(** One iteration of the loop brings the acceptor back to the loop. *)
Lemma loop_sim : forall n start l t,
  observe t = observe (ITree.forever (Server.accept_once start l)) ->
  sim n t (PLoop start l).
Proof.
  induction n as [n IH] using lt_wf_ind. intros start l t Ht.
  destruct n as [|n]; [exact I|]. intros env h.
  unfold thread_step. rewrite Ht. cbn. split; [reflexivity|].
  sim_next n. case_answer.
  - sim_fatal n.
  - sim_next n. split; [reflexivity|].
    sim_next n. split; [reflexivity|].
    sim_next n. split; [reflexivity|].
    sim_next n. apply IH; [lia | reflexivity].
Qed.

Lemma program_sim n : sim n Server.program PInit.
Proof.
  sim_next n. split; [reflexivity|].
  sim_next n. case_answer.
  - sim_fatal n.
  - apply loop_sim. reflexivity.
Qed.

Lemma at_pos_step t q env h :
  at_pos t q -> step_sim at_pos (thread_step env h t) (astep env h q).
Proof.
  intros H. pose proof (H 1%nat env h) as H1.
  assert (Hn : forall n, step_sim (sim n) (thread_step env h t) (astep env h q)).
  { intros n. exact (H (S n) env h). }
  destruct (thread_step env h t), (astep env h q); simpl in *; auto;
    try (split; [apply H1|]); intros n; apply (Hn n).
Qed.

(** ** Lists of goroutines *)

Section ListFacts.

Context {A : Type}.

Lemma nth_error_set_nth_eq {l : list A} {i} x {y} :
  nth_error l i = Some y -> nth_error (set_nth i x l) i = Some x.
Proof.
  revert i. induction l as [|z l IH]; intros [|i] H; simpl in *;
    try discriminate; auto.
Qed.

Lemma nth_error_set_nth_neq (l : list A) i j x :
  i <> j -> nth_error (set_nth i x l) j = nth_error l j.
Proof.
  revert i j. induction l as [|z l IH]; intros [|i] [|j] H; simpl; auto.
  - congruence.
Qed.

Lemma length_set_nth (l : list A) i x : List.length (set_nth i x l) = List.length l.
Proof.
  revert i. induction l as [|z l IH]; intros [|i]; simpl; auto.
Qed.

Lemma map_set_nth_same {B} (f : A -> B) {l : list A} {i} x {y} :
  nth_error l i = Some y -> f x = f y -> map f (set_nth i x l) = map f l.
Proof.
  revert i. induction l as [|z l IH]; intros [|i] H E; simpl in *;
    try discriminate; auto.
  - inversion H; subst. rewrite E. reflexivity.
  - rewrite IH; auto.
Qed.

Lemma Forall_set_nth (P : A -> Prop) (l : list A) i x :
  Forall P l -> P x -> Forall P (set_nth i x l).
Proof.
  intros H Hx. revert i. induction H as [|z l Hz Hl IH]; intros [|i]; simpl; auto.
Qed.

Lemma Forall2_set_nth {B} (R : A -> B -> Prop) l1 l2 i x y :
  Forall2 R l1 l2 -> R x y -> Forall2 R (set_nth i x l1) (set_nth i y l2).
Proof.
  intros H Hxy. revert i. induction H as [|a b l1 l2 Hab Hl IH]; intros [|i];
    simpl; auto.
Qed.

Lemma Forall2_nth_error {B} (R : A -> B -> Prop) l1 l2 i :
  Forall2 R l1 l2 ->
  match nth_error l1 i, nth_error l2 i with
  | Some a, Some b => R a b
  | None, None => True
  | _, _ => False
  end.
Proof.
  intros H. revert i. induction H as [|a b l1 l2 Hab Hl IH]; intros [|i];
    simpl; auto. apply IH.
Qed.

End ListFacts.

(** ** The process follows the control-flow graph *)

Lemma step_prel env i p ap :
  prel p ap ->
  prel (step thread_step Server.do env i p) (step astep PRead env i ap).
Proof.
  intros (Hlog & Hst & Hth). unfold step.
  rewrite <- Hst. destruct (pstatus p) eqn:Hp; [|repeat split; auto; congruence].
  pose proof (Forall2_nth_error _ _ _ i Hth) as Hi.
  destruct (nth_error (threads p) i) as [g|], (nth_error (threads ap) i) as [ag|];
    try contradiction; [|repeat split; auto; congruence].
  destruct Hi as [Hc Hat].
  assert (Hh : history p = history ap) by (unfold history; rewrite Hlog; reflexivity).
  pose proof (at_pos_step _ _ env (history p) Hat) as Hs. rewrite <- Hh.
  destruct (thread_step env (history p) (g_code g)) as [r|t'|a t'|c t'|code],
    (astep env (history p) (g_code ag)) as [r'|q'|b q'|d q'|code'];
    simpl in Hs; try contradiction.
  - destruct i; repeat split; auto; congruence.
  - repeat split; simpl; auto. apply Forall2_set_nth; auto. split; simpl; auto.
  - destruct Hs as [-> Hs]. repeat split; simpl; auto; [congruence|].
    apply Forall2_set_nth; auto. split; simpl; auto.
  - destruct Hs as [-> Hs]. repeat split; simpl; auto; [congruence|].
    apply Forall2_app.
    + apply Forall2_set_nth; auto. split; simpl; auto.
    + constructor; [|constructor]. split; simpl; auto. intros n. apply do_sim.
  - subst. repeat split; simpl; auto. congruence.
Qed.

Lemma run_prel env sched : forall p ap,
  prel p ap -> prel (server_run env sched p) (arun env sched ap).
Proof.
  induction sched as [|i sched IH]; intros p ap H; simpl; auto.
  apply IH. apply step_prel. exact H.
Qed.

Lemma init_prel : prel init ainit.
Proof.
  repeat split; simpl; auto. constructor; [|constructor].
  split; simpl; auto. intros n. apply program_sim.
Qed.

Lemma serve_prel env sched : prel (serve env sched) (arun env sched ainit).
Proof. apply run_prel. apply init_prel. Qed.

(** ** Logs *)

Lemma accepted_app l1 l2 : accepted (l1 ++ l2) = accepted l1 ++ accepted l2.
Proof.
  induction l1 as [|[i a] l1 IH]; simpl; auto.
  destruct a; auto. destruct err; auto. simpl. rewrite IH. reflexivity.
Qed.

Lemma dispatched_app l1 l2 : dispatched (l1 ++ l2) = dispatched l1 ++ dispatched l2.
Proof.
  induction l1 as [|[i a] l1 IH]; simpl; auto.
  destruct a; auto. simpl. rewrite IH. reflexivity.
Qed.

Lemma proj_snoc j l i a :
  proj j (l ++ [(i, a)]) = if Nat.eqb i j then proj j l ++ [a] else proj j l.
Proof.
  unfold proj. rewrite filter_app, map_app. simpl.
  destruct (Nat.eqb i j); simpl; auto. apply app_nil_r.
Qed.

Lemma proj_none j l : (forall a, ~ In (j, a) l) -> proj j l = [].
Proof.
  unfold proj. induction l as [|[i a] l IH]; intros H; simpl; auto.
  destruct (Nat.eqb i j) eqn:E.
  - apply Nat.eqb_eq in E. subst. exfalso. apply (H a). left. reflexivity.
  - apply IH. intros b Hb. apply (H b). right. exact Hb.
Qed.

Lemma after_failure_snoc tr a :
  after_failure (tr ++ [a]) =
  match after_failure tr with
  | Some (f, post) => Some (f, post ++ [a])
  | None => if is_failure a then Some (a, []) else None
  end.
Proof.
  induction tr as [|b tr IH]; simpl; auto.
  destruct (is_failure b); auto.
Qed.

(** ** Steps of the control-flow graph *)

Lemma astep_done {env h q r} : astep env h q = SDone r -> q = PDone.
Proof. destruct q; simpl; intros H; try discriminate; auto. Qed.

Lemma astep_exit {env h q code} : astep env h q = SExit code -> q = PExit /\ code = 1%Z.
Proof. destruct q; simpl; intros H; try discriminate; inversion H; auto. Qed.

Lemma astep_silent {env h q q'} :
  astep env h q = SSilent q' -> exists s l, q = PTau s l /\ q' = PLoop s l.
Proof. destruct q; simpl; intros H; try discriminate; inversion H; eauto. Qed.

Lemma astep_spawn {env h q c q'} :
  astep env h q = SSpawn c q' -> exists s l, q = PGo s l c /\ q' = PTau s l.
Proof. destruct q; simpl; intros H; try discriminate; inversion H; subst; eauto. Qed.

Ltac astep_cases H :=
  match type of H with
  | astep ?env ?h ?q = _ =>
      destruct q; simpl in H; try discriminate; inversion H; subst; clear H
  end.

Lemma astep_act_main {env h q a q'} i :
  astep env h q = SAct a q' -> main_pos q = true ->
  main_pos q' = true /\ conn_of a = None /\
  pending q' = pending q ++ accepted [(i, a)] /\
  dispatched [(i, a)] = [] /\ is_exit a = false.
Proof.
  intros H Hm. astep_cases H; simpl in *; try discriminate;
    repeat match goal with
    | |- context [snd ?r] => destruct (snd r)
    end; simpl; auto.
Qed.

Lemma astep_act_handler {env h q a q'} i {c} :
  astep env h q = SAct a q' -> handler_pos c q = true ->
  handler_pos c q' = true /\ (forall c', conn_of a = Some c' -> c' = c) /\
  accepted [(i, a)] = [] /\ dispatched [(i, a)] = [] /\ is_exit a = false.
Proof.
  intros H Hm. astep_cases H; simpl in *; try discriminate;
    try (apply Nat.eqb_eq in Hm; subst);
    repeat match goal with
    | |- context [rd_err ?r] => destruct (rd_err r)
    end; simpl; rewrite ?Nat.eqb_refl; repeat split; auto;
    try (intros c' E; inversion E; auto); try discriminate.
Qed.

Lemma astep_act_fail {env h q a q'} tr :
  astep env h q = SAct a q' ->
  fail_inv q (after_failure tr) Running ->
  fail_inv q' (after_failure (tr ++ [a])) Running.
Proof.
  intros H Hf. rewrite after_failure_snoc.
  astep_cases H; simpl in *;
    try (rewrite Hf; simpl;
         repeat match goal with
         | |- context [snd ?r] => destruct (snd r) eqn:?
         | |- context [rd_err ?r] => destruct (rd_err r) eqn:?
         end; simpl; auto).
  - eexists. split; [reflexivity|]. simpl. reflexivity.
  - eexists. split; [reflexivity|]. simpl. reflexivity.
  - destruct Hf as (f & -> & <-). simpl. exists f. left. reflexivity.
  - eexists. split; [reflexivity|]. simpl.
    match goal with E : rd_err _ = Some _ |- _ => rewrite E end. reflexivity.
Qed.

Lemma fail_inv_running q af st : fail_inv q af Running -> fail_inv q af st.
Proof.
  destruct q; simpl; auto.
  intros (a & [H | [_ H]]); [|discriminate]. exists a. left. exact H.
Qed.

Lemma nth_error_set_nth_conn {C} {l : list (goroutine C)} {i j g} g' {gj} :
  nth_error l i = Some g -> g_conn g' = g_conn g ->
  nth_error l j = Some gj ->
  exists gj', nth_error (set_nth i g' l) j = Some gj' /\ g_conn gj' = g_conn gj.
Proof.
  intros Hi Hc Hj. destruct (Nat.eq_dec i j) as [->|Hne].
  - exists g'. split; [eapply nth_error_set_nth_eq; eauto|]. congruence.
  - exists gj. split; auto. rewrite nth_error_set_nth_neq; auto.
Qed.

(** Who goroutine [i] is. *)
Lemma shape_nth {gs : list (goroutine pos)} {q0 hs i g} :
  gs = mkG None q0 :: hs -> Forall handler_ok hs ->
  nth_error gs i = Some g ->
  (i = 0%nat /\ g = mkG None q0) \/
  (exists k c, i = S k /\ nth_error hs k = Some g /\ g_conn g = Some c /\
               handler_pos c (g_code g) = true).
Proof.
  intros -> Hh Hg. destruct i as [|k]; simpl in Hg.
  - left. inversion Hg; auto.
  - right. rewrite Forall_forall in Hh.
    destruct (Hh g (nth_error_In _ _ Hg)) as (c & Hc & Hp). exists k, c. auto.
Qed.


Lemma nth_error_app_conn {C} {l : list (goroutine C)} extra {j gj} :
  nth_error l j = Some gj -> nth_error (l ++ extra) j = Some gj.
Proof.
  intros H. rewrite nth_error_app1; auto. apply nth_error_Some. congruence.
Qed.

Lemma forallb_snoc {A} (f : A -> bool) l x :
  forallb f (l ++ [x]) = forallb f l && f x.
Proof. rewrite forallb_app. simpl. rewrite andb_true_r. reflexivity. Qed.

Lemma ainv_step env i p : ainv p -> ainv (step astep PRead env i p).
Proof.
  intros Hinv. unfold step.
  destruct (pstatus p) eqn:Hst; [|exact Hinv].
  destruct (nth_error (threads p) i) as [g|] eqn:Hg; [|exact Hinv].
  destruct Hinv as [(q0 & hs & Hth & Hm & Hhs & Hdisp & Hacc) Hown Hfail Hstat].
  rewrite Hst in Hstat.
  pose proof (shape_nth Hth Hhs Hg) as Hwho.
  pose proof (Hfail i g Hg) as Hfi. rewrite Hst in Hfi.
  assert (Hother : forall a j gj,
            nth_error (threads p) j = Some gj -> i <> j ->
            fail_inv (g_code gj) (after_failure (proj j (plog p ++ [(i, a)]))) Running).
  { intros a j gj Hj Hne. rewrite proj_snoc.
    destruct (Nat.eqb i j) eqn:E; [apply Nat.eqb_eq in E; contradiction|].
    specialize (Hfail j gj Hj). rewrite Hst in Hfail. exact Hfail. }
  destruct (astep env (history p) (g_code g)) as [r|q'|a q'|c q'|code] eqn:Hstep.
  - (* return *)
    destruct i as [|k].
    + exfalso. destruct Hwho as [[_ ->] | (k & c & E & _)]; [|discriminate].
      apply astep_done in Hstep. simpl in Hstep. subst. discriminate.
    + constructor; eauto 10. rewrite Hst. exact Hstat.
  - (* jump back *)
    destruct (astep_silent Hstep) as (s & l & Hq & ->).
    destruct Hwho as [[-> ->] | (k & c & _ & _ & _ & Hp)];
      [|rewrite Hq in Hp; discriminate].
    simpl in Hq. subst q0. rewrite Hth in *. simpl.
    constructor; simpl.
    + exists (PLoop s l), hs. repeat split; auto.
    + intros j b Hin. destruct (Hown j b Hin) as (gj & Hj & Hc).
      destruct j; simpl in *; eauto. inversion Hj; subst. eexists; split; eauto.
    + intros j gj Hj. destruct j; simpl in Hj.
      * inversion Hj; subst. simpl. exact Hfi.
      * specialize (Hfail (S j) gj Hj). rewrite Hst in Hfail. exact Hfail.
    + exact Hstat.
  - (* a call *)
    assert (Hex : is_exit a = false /\ dispatched [(i, a)] = []).
    { destruct Hwho as [[-> ->] | (k & c & -> & Hk & Hc & Hp)].
      - destruct (astep_act_main 0%nat Hstep Hm) as (_ & _ & _ & ? & ?); auto.
      - destruct (astep_act_handler (S k) Hstep Hp) as (_ & _ & _ & ? & ?); auto. }
    destruct Hex as [Hex Hnd].
    constructor; simpl.
    + rewrite dispatched_app, accepted_app, Hnd, app_nil_r.
      destruct Hwho as [[-> ->] | (k & c & -> & Hk & Hc & Hp)].
      * destruct (astep_act_main 0%nat Hstep Hm) as (Hm' & _ & Hpend & _ & _).
        cbn [g_code] in Hpend. rewrite Hacc, <- app_assoc, <- Hpend.
        rewrite Hth. simpl. exists q', hs. repeat split; auto.
      * destruct (astep_act_handler (S k) Hstep Hp) as (Hp' & _ & Hna & _ & _).
        rewrite Hna, app_nil_r.
        rewrite Hth. simpl. exists q0, (set_nth k (mkG (g_conn g) q') hs).
        repeat split; auto.
        -- apply Forall_set_nth; auto. exists c. split; auto.
        -- rewrite (map_set_nth_same g_conn _ Hk); auto.
    + intros j b Hin. apply in_app_or in Hin. destruct Hin as [Hin | [Hin | []]].
      * destruct (Hown j b Hin) as (gj & Hj & Hc).
        destruct (nth_error_set_nth_conn (mkG (g_conn g) q') Hg eq_refl Hj)
          as (gj' & Hj' & E).
        exists gj'. split; auto. intros c0 Hc0. rewrite E. auto.
      * inversion Hin; subst j b. exists (mkG (g_conn g) q').
        split; [eapply nth_error_set_nth_eq; eauto|]. simpl. intros c0 Hc0.
        destruct Hwho as [[-> ->] | (k & c & -> & Hk & Hc & Hp)].
        -- destruct (astep_act_main 0%nat Hstep Hm) as (_ & Hn & _). congruence.
        -- destruct (astep_act_handler (S k) Hstep Hp) as (_ & Hcc & _).
           rewrite (Hcc c0 Hc0). exact Hc.
    + intros j gj Hj. destruct (Nat.eq_dec i j) as [<-|Hne].
      * rewrite (nth_error_set_nth_eq _ Hg) in Hj. inversion Hj; subst gj. simpl.
        rewrite proj_snoc, Nat.eqb_refl. eapply astep_act_fail; eauto.
      * rewrite nth_error_set_nth_neq in Hj by auto. apply Hother; auto.
    + rewrite forallb_snoc, Hstat. simpl. rewrite Hex. reflexivity.
  - (* go *)
    destruct (astep_spawn Hstep) as (s & l & Hq & ->).
    destruct Hwho as [[-> ->] | (k & c0 & _ & _ & _ & Hp)];
      [|rewrite Hq in Hp; discriminate].
    simpl in Hq. subst q0. rewrite Hth in *. simpl in *.
    constructor; simpl.
    + rewrite dispatched_app, accepted_app. simpl. rewrite app_nil_r.
      exists (PTau s l), (hs ++ [mkG (Some c) (PRead c)]). repeat split; auto.
      * apply Forall_app. split; auto. constructor; [|constructor].
        exists c. split; simpl; auto. apply Nat.eqb_refl.
      * rewrite !map_app, Hdisp. reflexivity.
      * simpl. rewrite app_nil_r. exact Hacc.
    + intros j b Hin. apply in_app_or in Hin. destruct Hin as [Hin | [Hin | []]].
      * destruct (Hown j b Hin) as (gj & Hj & Hc).
        destruct j; simpl in *.
        -- inversion Hj; subst. eexists; split; eauto.
        -- exists gj. split; auto. apply nth_error_app_conn. exact Hj.
      * inversion Hin; subst j b. eexists; split; [simpl; reflexivity|].
        simpl. discriminate.
    + intros j gj Hj. destruct j as [|j]; simpl in Hj.
      * inversion Hj; subst gj. simpl. rewrite proj_snoc. simpl.
        rewrite after_failure_snoc. simpl in Hfi. rewrite Hfi. reflexivity.
      * rewrite proj_snoc. simpl.
        destruct (nth_error hs j) as [gj0|] eqn:Hj0.
        -- rewrite (nth_error_app_conn _ Hj0) in Hj. inversion Hj; subst gj0.
           specialize (Hfail (S j) gj Hj0). rewrite Hst in Hfail. exact Hfail.
        -- apply nth_error_None in Hj0.
           assert (Hnone : proj (S j) (plog p) = []).
           { apply proj_none. intros b Hin.
             destruct (Hown (S j) b Hin) as (gj' & Hj' & _). simpl in Hj'.
             apply nth_error_None in Hj0. congruence. }
           rewrite Hnone. simpl.
           rewrite nth_error_app2 in Hj by auto.
           destruct (j - List.length hs)%nat as [|n]; simpl in Hj.
           ++ inversion Hj; subst gj. reflexivity.
           ++ destruct n; discriminate.
    + rewrite forallb_snoc, Hstat. reflexivity.
  - (* exit *)
    destruct (astep_exit Hstep) as (Hq & ->).
    constructor; simpl.
    + rewrite dispatched_app, accepted_app. simpl. rewrite !app_nil_r.
      exists q0, hs. repeat split; auto.
    + intros j b Hin. apply in_app_or in Hin. destruct Hin as [Hin | [Hin | []]]; auto.
      inversion Hin; subst j b. exists g. split; auto. simpl. discriminate.
    + intros j gj Hj. destruct (Nat.eq_dec i j) as [<-|Hne].
      * rewrite Hg in Hj. inversion Hj; subst gj. rewrite Hq in *. simpl in *.
        rewrite proj_snoc, Nat.eqb_refl, after_failure_snoc.
        destruct Hfi as (f & [E | [_ E]]); [|discriminate].
        rewrite E. exists f. right. split; reflexivity.
      * apply fail_inv_running. apply Hother; auto.
    + split; auto. exists i, (plog p). reflexivity.
Qed.

(** ** What a handler goroutine has done *)

Lemma astep_act_local {env h q a q'} c tr :
  astep env h q = SAct a q' -> handler_pos c q = true ->
  handler_local c q tr -> handler_local c q' (tr ++ [a]).
Proof.
  intros H Hp Hl. astep_cases H; simpl in *; try discriminate;
    try (apply Nat.eqb_eq in Hp; subst).
  - destruct Hl as (r & e & Hr & -> & ->). exists r, e. split; auto.
  - simpl.
    destruct (rd_err (env ReadResult h (ConnRead c 1024))) eqn:E; simpl; eauto.
  - destruct Hl as (r & Hr & ->). eauto.
  - destruct Hl as (r & Hr & ->). simpl. eauto.
  - destruct Hl as (r & n & e & Hr & ->). simpl. eauto 6.
Qed.

Lemma linv_step env i p : ainv p -> linv p -> linv (step astep PRead env i p).
Proof.
  intros Hinv Hl. unfold step.
  destruct (pstatus p) eqn:Hst; [|exact Hl].
  destruct (nth_error (threads p) i) as [g|] eqn:Hg; [|exact Hl].
  destruct (inv_shape _ Hinv) as (q0 & hs & Hth & Hm & Hhs & _ & _).
  pose proof (shape_nth Hth Hhs Hg) as Hwho.
  assert (Hother : forall a j gj c,
            nth_error (threads p) j = Some gj -> g_conn gj = Some c -> i <> j ->
            handler_local c (g_code gj) (proj j (plog p ++ [(i, a)]))).
  { intros a j gj c Hj Hc Hne. rewrite proj_snoc.
    destruct (Nat.eqb i j) eqn:E; [apply Nat.eqb_eq in E; contradiction|].
    apply Hl; auto. }
  destruct (astep env (history p) (g_code g)) as [r|q'|a q'|c q'|code] eqn:Hstep.
  - destruct i; auto.
  - intros j gj c Hj Hc. simpl in *.
    destruct (Nat.eq_dec i j) as [<-|Hne].
    + rewrite (nth_error_set_nth_eq _ Hg) in Hj. inversion Hj; subst gj. simpl in *.
      destruct (astep_silent Hstep) as (s & l & Hq & ->).
      destruct Hwho as [[-> ->] | (k & c0 & _ & _ & _ & Hp)]; [discriminate|].
      rewrite Hq in Hp. discriminate.
    + rewrite nth_error_set_nth_neq in Hj by auto. apply Hl; auto.
  - intros j gj c Hj Hc. simpl in *.
    destruct (Nat.eq_dec i j) as [<-|Hne].
    + rewrite (nth_error_set_nth_eq _ Hg) in Hj. inversion Hj; subst gj. simpl in *.
      rewrite proj_snoc, Nat.eqb_refl.
      destruct Hwho as [[-> ->] | (k & c0 & -> & _ & Hc0 & Hp)]; [discriminate|].
      assert (c0 = c) by congruence. subst c0.
      eapply astep_act_local; eauto.
    + rewrite nth_error_set_nth_neq in Hj by auto. apply Hother; auto.
  - intros j gj c0 Hj Hc. simpl in *.
    destruct (astep_spawn Hstep) as (s & l & Hq & ->).
    destruct Hwho as [[-> ->] | (k & c1 & _ & _ & _ & Hp)];
      [|rewrite Hq in Hp; discriminate].
    rewrite Hth in *. simpl in Hj.
    destruct j as [|j]; simpl in Hj; [inversion Hj; subst gj; discriminate|].
    rewrite proj_snoc. simpl.
    destruct (nth_error hs j) as [gj0|] eqn:Hj0.
    + rewrite (nth_error_app_conn _ Hj0) in Hj. inversion Hj; subst gj0.
      apply (Hl (S j)); auto. rewrite Hth. exact Hj0.
    + assert (Hnone : proj (S j) (plog p) = []).
      { apply proj_none. intros b Hin.
        destruct (inv_owner _ Hinv (S j) b Hin) as (gj' & Hj' & _).
        rewrite Hth in Hj'. simpl in Hj'. congruence. }
      rewrite Hnone.
      apply nth_error_None in Hj0. rewrite nth_error_app2 in Hj by auto.
      destruct (j - List.length hs)%nat as [|n]; simpl in Hj.
      * inversion Hj; subst gj. reflexivity.
      * destruct n; discriminate.
  - intros j gj c Hj Hc. simpl in *.
    destruct (astep_exit Hstep) as (Hq & ->).
    destruct (Nat.eq_dec i j) as [<-|Hne].
    + rewrite Hg in Hj. inversion Hj; subst gj.
      rewrite proj_snoc, Nat.eqb_refl.
      pose proof (Hl i g c Hg Hc) as Hloc. rewrite Hq in *. simpl in *.
      destruct Hloc as (r & e & Hr & [E | E]).
      * rewrite E. exists r, e. split; auto.
      * exfalso. pose proof (inv_fail _ Hinv i g Hg) as Hf.
        rewrite Hq, Hst, E in Hf. simpl in Hf. rewrite Hr in Hf.
        destruct Hf as (f & [E' | [_ E']]); discriminate.
    + apply Hother; auto.
Qed.

(** ** The invariant holds in every execution *)

Lemma ainit_inv : ainv ainit.
Proof.
  constructor; simpl.
  - exists PInit, []. repeat split; auto.
  - intros i a [].
  - intros [|i] g H; simpl in H; [|destruct i; discriminate].
    inversion H; subst. reflexivity.
  - reflexivity.
Qed.

Lemma arun_inv env sched : forall p, ainv p -> ainv (arun env sched p).
Proof.
  induction sched as [|i sched IH]; intros p H; simpl; auto.
  apply IH. apply ainv_step. exact H.
Qed.

Lemma ainit_linv : linv ainit.
Proof.
  intros [|i] g c H Hc; simpl in H; [|destruct i; discriminate].
  inversion H; subst. discriminate.
Qed.

Lemma arun_linv env sched : forall p, ainv p -> linv p -> linv (arun env sched p).
Proof.
  induction sched as [|i sched IH]; intros p H L; simpl; auto.
  apply IH; [apply ainv_step | apply linv_step]; assumption.
Qed.

Section SchedulerFacts.
Context {C : Type}.
Variable tstep : Env -> list action -> C -> step_result C unit.
Variable spawn : Conn -> C.

Lemma run_process_terminated env sched (p : process C) code :
  pstatus p = Terminated code -> run_process tstep spawn env sched p = p.
Proof.
  intros H. induction sched as [|i sched IH]; simpl; auto.
  assert (E : step tstep spawn env i p = p) by (unfold step; rewrite H; reflexivity).
  rewrite E. exact IH.
Qed.

Lemma run_process_app env s1 s2 (p : process C) :
  run_process tstep spawn env (s1 ++ s2) p =
  run_process tstep spawn env s2 (run_process tstep spawn env s1 p).
Proof. unfold run_process. apply fold_left_app. Qed.

(** A step adds at most one entry to the log, made by the goroutine that ran. *)
Lemma step_log env i (p : process C) :
  plog (step tstep spawn env i p) = plog p \/
  exists a, plog (step tstep spawn env i p) = plog p ++ [(i, a)].
Proof.
  unfold step. destruct (pstatus p); auto.
  destruct (nth_error (threads p) i); auto.
  destruct (tstep env (history p) (g_code g)); simpl; eauto.
  destruct i; auto.
Qed.

Lemma step_act env i (p : process C) g a t' :
  pstatus p = Running -> nth_error (threads p) i = Some g ->
  tstep env (history p) (g_code g) = SAct a t' ->
  step tstep spawn env i p =
    mkP (set_nth i (mkG (g_conn g) t') (threads p)) (plog p ++ [(i, a)]) Running.
Proof. intros Hs Hg Ht. unfold step. rewrite Hs, Hg, Ht. reflexivity. Qed.

Lemma step_spawn env i (p : process C) g c t' :
  pstatus p = Running -> nth_error (threads p) i = Some g ->
  tstep env (history p) (g_code g) = SSpawn c t' ->
  step tstep spawn env i p =
    mkP (set_nth i (mkG (g_conn g) t') (threads p) ++ [mkG (Some c) (spawn c)])
        (plog p ++ [(i, AGo c)]) Running.
Proof. intros Hs Hg Ht. unfold step. rewrite Hs, Hg, Ht. reflexivity. Qed.

Lemma step_silent env i (p : process C) g t' :
  pstatus p = Running -> nth_error (threads p) i = Some g ->
  tstep env (history p) (g_code g) = SSilent t' ->
  step tstep spawn env i p =
    mkP (set_nth i (mkG (g_conn g) t') (threads p)) (plog p) Running.
Proof. intros Hs Hg Ht. unfold step. rewrite Hs, Hg, Ht. reflexivity. Qed.

End SchedulerFacts.

(** ** After a failure *)

Lemma after_failure_thread {p i a post} :
  ainv p -> after_failure (proj i (plog p)) = Some (a, post) ->
  exists g, nth_error (threads p) i = Some g /\
            fail_inv (g_code g) (Some (a, post)) (pstatus p).
Proof.
  intros Hinv Haf.
  destruct (nth_error (threads p) i) as [g|] eqn:Hg.
  - exists g. split; auto. rewrite <- Haf. apply (inv_fail _ Hinv); auto.
  - exfalso. rewrite proj_none in Haf; [discriminate|].
    intros b Hin. destruct (inv_owner _ Hinv i b Hin) as (g & Hg' & _). congruence.
Qed.

Lemma after_failure_shape {p i a post} :
  ainv p -> after_failure (proj i (plog p)) = Some (a, post) ->
  post = [] \/ post = [ALogPrint (fatal_msg a)] \/
  (post = [ALogPrint (fatal_msg a); AExit 1] /\ pstatus p = Terminated 1).
Proof.
  intros Hinv Haf.
  destruct (after_failure_thread Hinv Haf) as (g & Hg & Hf).
  destruct (g_code g); simpl in Hf; try discriminate.
  - destruct Hf as (f & E & _). inversion E; auto.
  - destruct Hf as (f & [E | [E Hs]]); inversion E; subst; auto.
Qed.

Lemma failure_terminates env : forall sched p i a post,
  ainv p -> after_failure (proj i (plog p)) = Some (a, post) ->
  (2 <= count_occ Nat.eq_dec sched i + List.length post)%nat ->
  pstatus (arun env sched p) = Terminated 1.
Proof.
  induction sched as [|j sched IH]; intros p i a post Hinv Haf Hn.
  - simpl in *. destruct (after_failure_shape Hinv Haf) as [-> | [-> | [-> Hs]]];
      simpl in Hn; auto; lia.
  - simpl. destruct (pstatus p) eqn:Hst.
    + (* running *)
      destruct (Nat.eq_dec j i) as [->|Hne].
      * destruct (after_failure_thread Hinv Haf) as (g & Hg & Hf).
        rewrite Hst in Hf. rewrite count_occ_cons_eq in Hn by reflexivity.
        destruct g as [gc q]. simpl in Hf.
        destruct q; simpl in Hf; try discriminate.
        -- destruct Hf as (f & E & Hm). inversion E; subst f post.
           eapply (IH _ i a [ALogPrint msg]).
           ++ apply ainv_step. exact Hinv.
           ++ unfold step. rewrite Hst, Hg. simpl.
              rewrite proj_snoc, Nat.eqb_refl, after_failure_snoc, Haf. reflexivity.
           ++ simpl in *. lia.
        -- unfold arun. erewrite run_process_terminated; unfold step; rewrite Hst, Hg; simpl; reflexivity.
      * rewrite count_occ_cons_neq in Hn by auto.
        eapply (IH _ i a post); [apply ainv_step; exact Hinv | | exact Hn].
        destruct (step_log astep PRead env j p) as [-> | (b & ->)]; auto.
        rewrite proj_snoc. destruct (Nat.eqb j i) eqn:E; auto.
        apply Nat.eqb_eq in E. contradiction.
    + (* already terminated *)
      pose proof (inv_status _ Hinv) as Hs. rewrite Hst in Hs. destruct Hs as [-> _].
      unfold step. rewrite Hst.
      unfold arun. erewrite run_process_terminated; eauto.
Qed.

(** ** From control points back to the program *)

Lemma prel_conns p ap : prel p ap -> map g_conn (threads p) = map g_conn (threads ap).
Proof.
  intros (_ & _ & H). induction H as [|g ag l al [Hc _] _ IH]; simpl; auto.
  rewrite Hc, IH. reflexivity.
Qed.

(** C1: in every execution of the server, under any scheduling and any
    environment, a goroutine that has met one of the three failures (the
    bind of the port, an accept, a read) does nothing afterwards but print
    the message of [log.Fatal] and exit with status 1; it never returns,
    retries or closes. Once it has had two more turns the whole process has
    terminated with status 1, and a terminated process is frozen: its log
    ends with the exit and no goroutine runs any more. *)
Theorem failures_terminate_process (env : Env) (sched : list nat) :
  let p := serve env sched in
  (forall i a post,
      after_failure (proj i (plog p)) = Some (a, post) ->
      (post = [] \/ post = [ALogPrint (fatal_msg a)] \/
       (post = [ALogPrint (fatal_msg a); AExit 1] /\ pstatus p = Terminated 1)) /\
      (forall sched', (2 <= count_occ Nat.eq_dec sched' i)%nat ->
         pstatus (server_run env sched' p) = Terminated 1)) /\
  (forall code,
      pstatus p = Terminated code ->
      code = 1 /\ (exists i pre, plog p = pre ++ [(i, AExit 1)]) /\
      forall sched', server_run env sched' p = p).
Proof.
  intros p.
  pose proof (serve_prel env sched) as Hrel. fold p in Hrel.
  pose proof (arun_inv env sched _ ainit_inv) as Hinv.
  destruct Hrel as (Hlog & Hst & Hth).
  split.
  - intros i a post Haf. rewrite Hlog in Haf. split.
    + rewrite Hst. exact (after_failure_shape Hinv Haf).
    + intros sched' Hn.
      destruct (run_prel env sched' _ _ (conj Hlog (conj Hst Hth))) as (_ & -> & _).
      eapply failure_terminates; eauto. lia.
  - intros code Hc. pose proof (inv_status _ Hinv) as Hs.
    rewrite <- Hst, Hc in Hs. destruct Hs as [-> Hex]. rewrite <- Hlog in Hex.
    repeat split; auto. intros sched'.
    unfold server_run. eapply run_process_terminated; eauto.
Qed.

Lemma failures_terminate_process_witness :
  pstatus (server_run (env_listen_fails "address already in use") [0; 0]%nat
             (serve (env_listen_fails "address already in use") [0; 0]%nat))
    = Terminated 1 /\
  pstatus (server_run (env_accept_fails "use of closed network connection") [0; 0]%nat
             (serve (env_accept_fails "use of closed network connection")
                (repeat 0%nat 4)))
    = Terminated 1 /\
  pstatus (server_run (env_read_fails "EOF") [1; 0; 1]%nat
             (serve (env_read_fails "EOF") (repeat 0%nat 8 ++ [1]%nat)))
    = Terminated 1.
Proof.
  split; [|split].
  - destruct (failures_terminate_process (env_listen_fails "address already in use")
                [0; 0]%nat) as [H _].
    refine (proj2 (H 0%nat _ _ _) _ _); [vm_compute; reflexivity | vm_compute; apply le_n].
  - destruct (failures_terminate_process
                (env_accept_fails "use of closed network connection")
                (repeat 0%nat 4)) as [H _].
    refine (proj2 (H 0%nat _ _ _) _ _); [vm_compute; reflexivity | vm_compute; apply le_n].
  - destruct (failures_terminate_process (env_read_fails "EOF")
                (repeat 0%nat 8 ++ [1]%nat)) as [H _].
    refine (proj2 (H 1%nat _ _ _) _ _); [vm_compute; reflexivity | vm_compute; apply le_n].
Defined.

Lemma dispatch_progress env ap :
  ainv ap -> pstatus ap = Running ->
  exists k, (k <= 3)%nat /\
    dispatched (plog (arun env (repeat 0%nat k) ap)) = accepted (plog ap).
Proof.
  intros Hinv Hst.
  destruct (inv_shape _ Hinv) as (q0 & hs & Hth & Hm & _ & _ & Hacc).
  destruct ap as [th lg st]. simpl in *. subst th st.
  destruct q0; simpl in Hacc;
    try (exists 0%nat; split; [lia|]; simpl; rewrite Hacc, app_nil_r; reflexivity).
  - exists 3%nat. split; [lia|]. unfold arun, run_process. simpl.
    rewrite !dispatched_app. simpl. rewrite !app_nil_r. auto.
  - exists 2%nat. split; [lia|]. unfold arun, run_process. simpl.
    rewrite !dispatched_app. simpl. rewrite !app_nil_r. auto.
  - exists 1%nat. split; [lia|]. unfold arun, run_process. simpl.
    rewrite !dispatched_app. simpl. auto.
Qed.

Lemma NoDup_map_Some {A} (l : list A) : NoDup l -> NoDup (map Some l).
Proof.
  induction 1 as [|x l Hx Hl IH]; simpl; constructor; auto.
  rewrite in_map_iff. intros (y & E & Hy). inversion E; subst. contradiction.
Qed.

Lemma tagged_once {C} (gs : list (goroutine C)) ds :
  map g_conn gs = None :: map Some ds -> NoDup ds ->
  forall i j gi gj c,
    nth_error gs i = Some gi -> nth_error gs j = Some gj ->
    g_conn gi = Some c -> g_conn gj = Some c -> i = j.
Proof.
  intros Hmap Hnd i j gi gj c Hi Hj Hci Hcj.
  assert (Hnd' : NoDup (map g_conn gs)).
  { rewrite Hmap. constructor.
    - rewrite in_map_iff. intros (x & E & _). discriminate.
    - apply NoDup_map_Some; auto. }
  rewrite NoDup_nth_error in Hnd'. apply Hnd'.
  - rewrite length_map. apply nth_error_Some. congruence.
  - rewrite (map_nth_error g_conn _ _ Hi), (map_nth_error g_conn _ _ Hj). congruence.
Qed.

(** C6: in every execution of the server, the goroutines besides the main
    one are, in order, one per connection given to [go do]; the connections
    given to [go do] are the accepted connections, in order, each once,
    except that the connection accepted last may still be on its way (the
    acceptor hands it over within its next three steps); when the listener
    hands out distinct connections no two goroutines are started for the
    same connection; and every read, write and close of a connection is made
    by the goroutine started for that connection. *)
Theorem each_connection_one_handler (env : Env) (sched : list nat) :
  let p := serve env sched in
  map g_conn (threads p) = None :: map Some (dispatched (plog p)) /\
  (exists rest,
      accepted (plog p) = dispatched (plog p) ++ rest /\ (List.length rest <= 1)%nat) /\
  (pstatus p = Running ->
   exists k, (k <= 3)%nat /\
     dispatched (plog (server_run env (repeat 0%nat k) p)) = accepted (plog p)) /\
  (NoDup (accepted (plog p)) ->
   forall i j gi gj c,
     nth_error (threads p) i = Some gi -> nth_error (threads p) j = Some gj ->
     g_conn gi = Some c -> g_conn gj = Some c -> i = j) /\
  (forall i a c,
     In (i, a) (plog p) -> conn_of a = Some c ->
     exists g, nth_error (threads p) i = Some g /\ g_conn g = Some c).
Proof.
  intros p.
  pose proof (serve_prel env sched) as Hrel. fold p in Hrel.
  pose proof (arun_inv env sched _ ainit_inv) as Hinv.
  pose proof (prel_conns _ _ Hrel) as Hconns.
  destruct Hrel as (Hlog & Hst & Hth).
  destruct (inv_shape _ Hinv) as (q0 & hs & Hths & Hm & _ & Hdisp & Hacc).
  assert (Hmap : map g_conn (threads p) = None :: map Some (dispatched (plog p))).
  { rewrite Hconns, Hths, Hlog. simpl. rewrite Hdisp. reflexivity. }
  split; [exact Hmap|]. split; [|split; [|split]].
  - exists (pending q0). rewrite Hlog. split; [exact Hacc|].
    destruct q0; simpl; lia.
  - intros Hrun. rewrite Hst in Hrun.
    destruct (dispatch_progress env _ Hinv Hrun) as (k & Hk & E).
    exists k. split; [exact Hk|].
    destruct (run_prel env (repeat 0%nat k) _ _ (conj Hlog (conj Hst Hth))) as (-> & _).
    rewrite Hlog. exact E.
  - intros Hnd. apply (tagged_once _ _ Hmap).
    rewrite Hlog, Hacc in Hnd. apply NoDup_app_remove_r in Hnd.
    rewrite Hlog. exact Hnd.
  - intros i a c Hin Hc. rewrite Hlog in Hin.
    destruct (inv_owner _ Hinv i a Hin) as (ag & Hag & Hcc).
    pose proof (Forall2_nth_error _ _ _ i Hth) as Hi. rewrite Hag in Hi.
    destruct (nth_error (threads p) i) as [g|]; [|contradiction].
    exists g. split; auto. destruct Hi as [E _]. rewrite E. auto.
Qed.

Lemma each_connection_one_handler_witness :
  let p := serve (env_ok []) (repeat 0%nat 8 ++ [1]%nat ++ repeat 0%nat 6) in
  NoDup (accepted (plog p)) /\
  forall i j gi gj c,
    nth_error (threads p) i = Some gi -> nth_error (threads p) j = Some gj ->
    g_conn gi = Some c -> g_conn gj = Some c -> i = j.
Proof.
  intros p.
  assert (Hnd : NoDup (accepted (plog p))).
  { vm_compute. repeat (constructor; [simpl; intuition discriminate|]). constructor. }
  split; [exact Hnd|].
  destruct (each_connection_one_handler (env_ok [])
              (repeat 0%nat 8 ++ [1]%nat ++ repeat 0%nat 6)) as (_ & _ & _ & H & _).
  exact (H Hnd).
Defined.

(** ** The acceptor *)

Lemma accept_iteration (env : Env) (p : process (itree goE unit)) start l t0 hs :
  pstatus p = Running ->
  threads p = mkG None t0 :: hs ->
  observe t0 = observe (ITree.forever (Server.accept_once start l)) ->
  (forall h, snd (env _ h (LAccept l)) = None) ->
  exists c now,
    server_run env (repeat 0%nat 6) p =
      mkP (mkG None (ITree.forever (Server.accept_once start l))
             :: hs ++ [mkG (Some c) (Server.do c)])
          (plog p ++ [ (0%nat, waiting);
                       (0%nat, AAccept l c None);
                       (0%nat, ANow now);
                       (0%nat, APrintln [VString "client connected at: ";
                                         VDuration (now - start)]);
                       (0%nat, AGo c) ])
          Running.
Proof.
  intros Hst Hth Hobs Hacc.
  destruct p as [th lg st]. simpl in Hst, Hth. subst th st.
  unfold server_run, run_process. cbn [repeat fold_left].
  erewrite (step_act thread_step Server.do env 0 (mkP _ _ _)); [| reflexivity | reflexivity |].
  2:{ cbn [g_code]. unfold thread_step. rewrite Hobs. cbn. reflexivity. }
  cbn [set_nth g_conn threads plog].
  erewrite (step_act thread_step Server.do env 0 (mkP _ _ _)); [| reflexivity | reflexivity |].
  2:{ cbn. reflexivity. }
  cbn [set_nth g_conn threads plog].
  match goal with |- context [env ?T ?h (LAccept l)] =>
    pose proof (Hacc h) as Ha; destruct (env T h (LAccept l)) as [c err] end.
  cbn [fst snd] in *. subst err.
  erewrite (step_act thread_step Server.do env 0 (mkP _ _ _)); [| reflexivity | reflexivity |].
  2:{ cbn. reflexivity. }
  cbn [set_nth g_conn threads plog].
  erewrite (step_act thread_step Server.do env 0 (mkP _ _ _)); [| reflexivity | reflexivity |].
  2:{ cbn. reflexivity. }
  cbn [set_nth g_conn threads plog].
  erewrite (step_spawn thread_step Server.do env 0 (mkP _ _ _)); [| reflexivity | reflexivity |].
  2:{ cbn. reflexivity. }
  cbn [set_nth g_conn threads plog].
  erewrite (step_silent thread_step Server.do env 0 (mkP _ _ _)); [| reflexivity | reflexivity |].
  2:{ cbn. reflexivity. }
  cbn [set_nth g_conn threads plog].
  do 2 eexists. rewrite <- !app_assoc. cbn [app]. reflexivity.
Qed.

Lemma proj_app j l1 l2 : proj j (l1 ++ l2) = proj j l1 ++ proj j l2.
Proof. unfold proj. rewrite filter_app, map_app. reflexivity. Qed.

Lemma step_handler_turn env p q0 hs j :
  ainv p -> threads p = mkG None q0 :: hs ->
  exists hs',
    threads (step astep PRead env (S j) p) = mkG None q0 :: hs' /\
    dispatched (plog (step astep PRead env (S j) p)) = dispatched (plog p).
Proof.
  intros Hinv Hth. unfold step.
  destruct (pstatus p); [|eauto].
  destruct (nth_error (threads p) (S j)) as [g|] eqn:Hg; [|eauto].
  destruct (inv_shape _ Hinv) as (q0' & hs0 & Hth' & _ & Hhs & _ & _).
  rewrite Hth in Hth'. inversion Hth'; subst q0' hs0.
  destruct (shape_nth Hth Hhs Hg) as [[E _] | (k & c & E & Hk & Hc & Hp)];
    [discriminate|]. inversion E; subst k.
  destruct (astep env (history p) (g_code g)) as [u|q'|a q'|c' q'|code] eqn:Hstep;
    simpl; rewrite ?Hth; simpl; eauto.
  - destruct (astep_act_handler (S j) Hstep Hp) as (_ & _ & _ & Hd & _).
    rewrite dispatched_app, Hd, app_nil_r. eauto.
  - destruct (astep_spawn Hstep) as (s & l & Hq & _). rewrite Hq in Hp. discriminate.
  - rewrite dispatched_app. simpl. rewrite app_nil_r. eauto.
Qed.

Lemma step_running {C} (tstep : Env -> list action -> C -> step_result C unit) spawn
  env i (p : process C) :
  pstatus (step tstep spawn env i p) = Running -> pstatus p = Running.
Proof. unfold step. destruct (pstatus p) eqn:E; auto. intros H. congruence. Qed.

Lemma acceptor_turns env sched :
  let p := arun env sched ainit in
  pstatus p = Running ->
  exists q0 hs,
    threads p = mkG None q0 :: hs /\
    turns_rel q0 (List.length (dispatched (plog p))) (count_occ Nat.eq_dec sched 0%nat).
Proof.
  induction sched as [|i sched IH] using rev_ind; intros p Hrun.
  - exists PInit, []. simpl. auto.
  - subst p. unfold arun in *. rewrite run_process_app in *. simpl in *.
    set (p := run_process astep PRead env sched ainit) in *.
    pose proof (arun_inv env sched _ ainit_inv) as Hinv. fold p in Hinv. unfold arun in Hinv. fold p in Hinv.
    pose proof (step_running _ _ _ _ _ Hrun) as Hp.
    destruct (IH Hp) as (q0 & hs & Hth & Hrel).
    rewrite count_occ_app. simpl.
    destruct i as [|j].
    + (* a turn of the acceptor *)
      destruct (Nat.eq_dec 0 0) as [_|N]; [|contradiction].
      revert Hrun. unfold step. rewrite Hp, Hth. simpl.
      destruct q0; simpl in Hrel |- *; try discriminate; intros _;
        rewrite ?dispatched_app; simpl; rewrite ?app_nil_r, ?length_app; simpl;
        try (eexists; eexists; split; [reflexivity|]; simpl; lia).
      all: repeat match goal with
             | |- context [snd ?r] => destruct (snd r)
             | |- context [rd_err ?r] => destruct (rd_err r)
             end;
        rewrite ?dispatched_app; simpl; rewrite ?app_nil_r;
        eexists; eexists; (split; [reflexivity|]); simpl; auto; lia.
    + destruct (Nat.eq_dec (S j) 0) as [N|_]; [discriminate|].
      destruct (step_handler_turn env p q0 hs j Hinv Hth) as (hs' & Hth' & Hd).
      exists q0, hs'. split; auto. rewrite Hd. rewrite Nat.add_0_r. exact Hrel.
Qed.

Lemma div6 d r : (r < 6)%nat -> ((r + 1 + 6 * d - 1) / 6)%nat = d.
Proof.
  intros H. symmetry. apply Nat.div_unique with (r := r); lia.
Qed.

Lemma dispatched_by_turns env sched :
  let p := serve env sched in
  pstatus p = Running -> after_failure (proj 0 (plog p)) = None ->
  List.length (dispatched (plog p)) = ((count_occ Nat.eq_dec sched 0%nat - 1) / 6)%nat.
Proof.
  intros p Hrun Hnf.
  destruct (serve_prel env sched) as (Hlog & Hst & _). fold p in Hlog, Hst.
  rewrite Hst in Hrun. rewrite Hlog in Hnf |- *.
  pose proof (arun_inv env sched _ ainit_inv) as Hinv.
  destruct (acceptor_turns env sched Hrun) as (q0 & hs & Hth & Hrel).
  destruct (inv_shape _ Hinv) as (q0' & hs' & Hth' & Hm & _).
  rewrite Hth in Hth'. inversion Hth'; subst q0' hs'.
  pose proof (inv_fail _ Hinv 0%nat (mkG None q0)) as Hf.
  rewrite Hth in Hf. specialize (Hf eq_refl). rewrite Hnf in Hf. simpl in Hf.
  remember (List.length (dispatched (plog (arun env sched ainit)))) as d.
  remember (count_occ Nat.eq_dec sched 0%nat) as k.
  clear Heqd Heqk.
  destruct q0; simpl in Hm, Hf; try discriminate Hm; cbn [turns_rel] in Hrel.
  - destruct Hrel as [Hd Hk]. rewrite Hd, Hk. reflexivity.
  - destruct Hrel as [Hd Hk]. rewrite Hd, Hk. reflexivity.
  - rewrite Hrel. symmetry. apply (div6 d 1). lia.
  - rewrite Hrel. symmetry. apply (div6 d 2). lia.
  - rewrite Hrel. symmetry. apply (div6 d 3). lia.
  - rewrite Hrel. symmetry. apply (div6 d 4). lia.
  - rewrite Hrel. symmetry. apply (div6 d 5). lia.
  - rewrite Hrel. symmetry. apply (div6 d 0). lia.
  - destruct Hf as (a & E & _). discriminate.
  - destruct Hf as (a & [E | [E _]]); discriminate.
Qed.

(** C7: from any running state of the process in which the main goroutine
    stands at the top of the accept loop, and whatever the other goroutines
    [hs] are in the middle of, the acceptor accepts and dispatches [n]
    connections in [6 * n] steps of its own when the accepts succeed: after
    each [go do(c)] it is back at the top of the loop, the new handlers are
    goroutines of their own that have not run yet, and no goroutine of [hs]
    has taken a step. And in every execution of the server, however the
    turns of the goroutines are interleaved, as long as the process runs and
    neither the bind nor an accept has failed, the number of connections
    dispatched depends only on the number of turns the acceptor has had: one
    more every six turns. *)
Theorem acceptor_never_waits (env : Env) :
  (forall n (p : process (itree goE unit)) start l t0 hs,
     pstatus p = Running ->
     threads p = mkG None t0 :: hs ->
     observe t0 = observe (ITree.forever (Server.accept_once start l)) ->
     (forall h, snd (env _ h (LAccept l)) = None) ->
     let p' := server_run env (repeat 0%nat (6 * n)) p in
     exists cs t0',
       List.length cs = n /\
       pstatus p' = Running /\
       threads p' = mkG None t0' :: hs ++ map handler_for cs /\
       observe t0' = observe (ITree.forever (Server.accept_once start l)) /\
       accepted (plog p') = accepted (plog p) ++ cs /\
       dispatched (plog p') = dispatched (plog p) ++ cs /\
       forall j, j <> 0%nat -> proj j (plog p') = proj j (plog p)) /\
  (forall sched,
     let p := serve env sched in
     pstatus p = Running -> after_failure (proj 0 (plog p)) = None ->
     List.length (dispatched (plog p)) =
       ((count_occ Nat.eq_dec sched 0%nat - 1) / 6)%nat).
Proof.
  split; [|apply dispatched_by_turns].
  induction n as [|n IH]; intros p start l t0 hs Hst Hth Hobs Hacc p'.
  - exists [], t0. subst p'. simpl. rewrite !app_nil_r. repeat split; auto.
  - destruct (accept_iteration env p start l t0 hs Hst Hth Hobs Hacc) as (c & now & E).
    subst p'. replace (6 * S n)%nat with (6 + 6 * n)%nat by lia.
    rewrite repeat_app. unfold server_run in *. rewrite run_process_app, E.
    match goal with |- context [run_process _ _ _ _ ?q] => set (p1 := q) end.
    destruct (IH p1 start l _ (hs ++ [handler_for c]) eq_refl eq_refl eq_refl Hacc)
      as (cs & t0' & Hlen & Hst' & Hth' & Hobs' & Ha' & Hd' & Hp').
    remember (6 * n)%nat as m eqn:Hm. clear Hm.
    exists (c :: cs), t0'. simpl List.length. rewrite Hth', Ha', Hd'.
    subst p1. cbn [plog]. rewrite accepted_app, dispatched_app. simpl.
    rewrite <- !app_assoc. simpl. repeat split; auto.
    intros j Hj. rewrite (Hp' j Hj). cbn [plog]. rewrite proj_app.
    unfold proj at 3. simpl. destruct j; [contradiction|]. simpl. apply app_nil_r.
Qed.

Lemma acceptor_never_waits_witness :
  let env := env_ok [] in
  let p := serve env (repeat 0%nat 8 ++ [1; 1]%nat) in
  let p' := server_run env (repeat 0%nat (6 * 2)) p in
  exists cs t0',
    List.length cs = 2%nat /\
    pstatus p' = Running /\
    threads p' = mkG None t0' :: tl (threads p) ++ map handler_for cs /\
    observe t0' = observe (ITree.forever (Server.accept_once 0 7%nat)) /\
    accepted (plog p') = accepted (plog p) ++ cs /\
    dispatched (plog p') = dispatched (plog p) ++ cs /\
    forall j, j <> 0%nat -> proj j (plog p') = proj j (plog p).
Proof.
  intros env p.
  apply (proj1 (acceptor_never_waits env) 2%nat p 0 7%nat
           (ITree.forever (Server.accept_once 0 7%nat)) (tl (threads p))).
  - reflexivity.
  - reflexivity.
  - reflexivity.
  - intros h. reflexivity.
Defined.

(** ** The handler inside the process *)

Lemma handler_local_prefix c q tr :
  handler_local c q tr ->
  exists r n werr cerr,
    (rd_err r = None /\
     prefix_of tr [ ARead c 1024 r; ASleep 8000000000;
                    AWrite c (bytes_of Server.response) n werr; AClose c cerr ]) \/
    (exists e, rd_err r = Some e /\
     prefix_of tr [ ARead c 1024 r;
                    ALogPrint ("error reading from connection: " ++ e)%string;
                    AExit 1 ]).
Proof.
  unfold prefix_of. destruct q; simpl; try contradiction.
  - intros (r & e & Hr & -> & _). exists r, 0%nat, None, None. right.
    exists e. split; auto. eexists. reflexivity.
  - intros (r & e & Hr & [-> | ->]); exists r, 0%nat, None, None; right;
      exists e; (split; [assumption|]); eexists; reflexivity.
  - intros ->. exists (mkRead [] None), 0%nat, None, None. left.
    split; auto. eexists. reflexivity.
  - intros (r & Hr & ->). exists r, 0%nat, None, None. left.
    split; auto. eexists. reflexivity.
  - intros (r & Hr & ->). exists r, 0%nat, None, None. left.
    split; auto. eexists. reflexivity.
  - intros (r & n & e & Hr & ->). exists r, n, e, None. left.
    split; auto. eexists. reflexivity.
  - intros (r & n & e & ce & Hr & ->). exists r, n, e, ce. left.
    split; auto. exists []. reflexivity.
Qed.

Lemma handler_goroutine_trace env sched i g c :
  nth_error (threads (serve env sched)) i = Some g -> g_conn g = Some c ->
  exists r n werr cerr,
    (rd_err r = None /\
     prefix_of (proj i (plog (serve env sched)))
       [ ARead c 1024 r; ASleep 8000000000;
         AWrite c (bytes_of Server.response) n werr; AClose c cerr ]) \/
    (exists e, rd_err r = Some e /\
     prefix_of (proj i (plog (serve env sched)))
       [ ARead c 1024 r;
         ALogPrint ("error reading from connection: " ++ e)%string;
         AExit 1 ]).
Proof.
  intros Hg Hc.
  destruct (serve_prel env sched) as (Hlog & _ & Hth).
  pose proof (Forall2_nth_error _ _ _ i Hth) as Hi. rewrite Hg in Hi.
  destruct (nth_error (threads (arun env sched ainit)) i) as [ag|] eqn:Hag;
    [|contradiction].
  destruct Hi as [E _]. rewrite Hlog.
  apply (handler_local_prefix c (g_code ag)).
  apply (arun_linv env sched _ ainit_inv ainit_linv i ag c Hag). congruence.
Qed.

Lemma proj_in i a l : In a (proj i l) -> In (i, a) l.
Proof.
  unfold proj. rewrite in_map_iff. intros ([j b] & E & Hin).
  apply filter_In in Hin. destruct Hin as [Hin Hj]. simpl in *.
  apply Nat.eqb_eq in Hj. subst. exact Hin.
Qed.

(** The goroutine whose first action was a successful read of [c]. *)
Lemma reader_stands {p i c r rest} :
  ainv p -> linv p ->
  proj i (plog p) = ARead c 1024 r :: rest -> rd_err r = None ->
  exists k g, i = S k /\ nth_error (threads p) i = Some g /\ g_conn g = Some c /\
    ((g_code g = PSleep c /\ rest = []) \/
     (g_code g = PWrite c /\ rest = [ASleep 8000000000]) \/
     (exists n e, g_code g = PClose c /\
        rest = [ASleep 8000000000; AWrite c (bytes_of Server.response) n e]) \/
     (exists n e ce, g_code g = PDone /\
        rest = [ASleep 8000000000; AWrite c (bytes_of Server.response) n e;
                AClose c ce])).
Proof.
  intros Hinv Hl Hp Hr.
  assert (Hin : In (i, ARead c 1024 r) (plog p)).
  { apply proj_in. rewrite Hp. left. reflexivity. }
  destruct (inv_owner _ Hinv _ _ Hin) as (g & Hg & Hc).
  specialize (Hc c eq_refl).
  destruct (inv_shape _ Hinv) as (q0 & hs & Hth & Hm & Hhs & _ & _).
  destruct (shape_nth Hth Hhs Hg) as [[-> ->] | (k & c0 & -> & _ & Hc0 & Hpos)];
    [discriminate|].
  assert (c0 = c) by congruence. subst c0.
  exists k, g. repeat split; auto.
  pose proof (Hl _ _ _ Hg Hc) as Hloc. rewrite Hp in Hloc.
  destruct (g_code g); simpl in Hpos; try discriminate; simpl in Hloc;
    try (apply Nat.eqb_eq in Hpos; subst).
  - destruct Hloc as (r' & e & Hr' & E & _). inversion E; subst. congruence.
  - destruct Hloc as (r' & e & Hr' & [E | E]); inversion E; subst; congruence.
  - destruct Hloc as (r' & Hr' & E). inversion E; subst. auto.
  - destruct Hloc as (r' & Hr' & E). inversion E; subst. auto.
  - destruct Hloc as (r' & n & e & Hr' & E). inversion E; subst. eauto 10.
  - destruct Hloc as (r' & n & e & ce & Hr' & E). inversion E; subst. eauto 10.
Qed.

Lemma handler_completes env : forall sched p i c r rest,
  ainv p -> linv p ->
  proj i (plog p) = ARead c 1024 r :: rest -> rd_err r = None ->
  (3 <= List.length rest + count_occ Nat.eq_dec sched i)%nat ->
  pstatus (arun env sched p) = Running ->
  exists n werr cerr,
    proj i (plog (arun env sched p)) =
      [ ARead c 1024 r; ASleep 8000000000;
        AWrite c (bytes_of Server.response) n werr; AClose c cerr ].
Proof.
  induction sched as [|j sched IH]; intros p i c r rest Hinv Hl Hp Hr Hn Hrun.
  - simpl in *. rewrite Hp.
    destruct (reader_stands Hinv Hl Hp Hr)
      as (k & g & _ & _ & _ & [[_ ->] | [[_ ->] | [(n & e & _ & ->) | (n & e & ce & _ & ->)]]]);
      simpl in Hn; try lia. eauto.
  - simpl in Hrun |- *.
    destruct (pstatus p) eqn:Hst.
    2:{ exfalso. unfold step in Hrun. rewrite Hst in Hrun.
        unfold arun in Hrun. erewrite run_process_terminated in Hrun by eauto.
        congruence. }
    destruct (Nat.eq_dec j i) as [->|Hne].
    + rewrite count_occ_cons_eq in Hn by reflexivity.
      destruct (reader_stands Hinv Hl Hp Hr)
        as (k & [gc q] & -> & Hg & _ & Hq). simpl in Hq.
      assert (Hi : ainv (step astep PRead env (S k) p)) by (apply ainv_step; auto).
      assert (Hli : linv (step astep PRead env (S k) p)) by (apply linv_step; auto).
      assert (Hstep : exists rest',
                 proj (S k) (plog (step astep PRead env (S k) p)) =
                   ARead c 1024 r :: rest' /\
                 (3 <= List.length rest' + count_occ Nat.eq_dec sched (S k))%nat).
      { unfold step. rewrite Hst, Hg. simpl.
        destruct Hq as [[-> ->] | [[-> ->] | [(n & e & -> & ->) | (n & e & ce & -> & ->)]]];
          simpl; rewrite ?proj_snoc, ?Nat.eqb_refl, Hp; simpl;
          eexists; (split; [reflexivity|]); simpl in *; lia. }
      destruct Hstep as (rest' & Hp' & Hn').
      eapply IH; eauto.
    + rewrite count_occ_cons_neq in Hn by auto.
      eapply IH; [apply ainv_step; auto | apply linv_step; auto | | exact Hr | exact Hn
                 | exact Hrun].
      destruct (step_log astep PRead env j p) as [-> | (b & ->)]; auto.
      rewrite proj_snoc. destruct (Nat.eqb j i) eqn:E; auto.
      apply Nat.eqb_eq in E. contradiction.
Qed.

Lemma prefix_cons_inv {A} (a b : A) l1 l2 :
  prefix_of (a :: l1) (b :: l2) -> a = b /\ prefix_of l1 l2.
Proof. intros (rest & E). inversion E; subst. split; auto. exists rest. reflexivity. Qed.

Lemma prefix_nil_inv {A} (l : list A) : prefix_of l [] -> l = [].
Proof. intros (rest & E). destruct l; auto. discriminate. Qed.

(** Every read, write and close of a connection is made by the goroutine
    started for it. *)
Lemma serve_owner env sched i a c :
  In (i, a) (plog (serve env sched)) -> conn_of a = Some c ->
  exists g, nth_error (threads (serve env sched)) i = Some g /\ g_conn g = Some c.
Proof.
  intros Hin Hc.
  destruct (serve_prel env sched) as (Hlog & _ & Hth).
  rewrite Hlog in Hin.
  destruct (inv_owner _ (arun_inv env sched _ ainit_inv) i a Hin) as (ag & Hag & Hcc).
  pose proof (Forall2_nth_error _ _ _ i Hth) as Hi. rewrite Hag in Hi.
  destruct (nth_error (threads (serve env sched)) i) as [g|]; [|contradiction].
  exists g. split; auto. destruct Hi as [E _]. rewrite E. auto.
Qed.

Lemma failed_reader_trace env sched i c r rest e :
  proj i (plog (serve env sched)) = ARead c 1024 r :: rest -> rd_err r = Some e ->
  prefix_of rest [ALogPrint ("error reading from connection: " ++ e)%string; AExit 1].
Proof.
  intros Hp Hr.
  assert (Hin : In (i, ARead c 1024 r) (plog (serve env sched))).
  { apply proj_in. rewrite Hp. left. reflexivity. }
  destruct (serve_owner env sched _ _ c Hin eq_refl) as (g & Hg & Hc).
  destruct (handler_goroutine_trace env sched i g c Hg Hc)
    as (r' & n & werr & cerr & [[Hr' Hpre] | (e' & Hr' & Hpre)]);
    rewrite Hp in Hpre; apply prefix_cons_inv in Hpre; destruct Hpre as [E Hpre];
    inversion E; subst r'.
  - congruence.
  - assert (e' = e) by congruence. subst e'. exact Hpre.
Qed.

Lemma handler_reads_once env sched i g c :
  nth_error (threads (serve env sched)) i = Some g -> g_conn g = Some c ->
  reads c (proj i (plog (serve env sched))) = [] \/
  exists r, reads c (proj i (plog (serve env sched))) = [(1024%nat, r)].
Proof.
  intros Hg Hc.
  destruct (handler_goroutine_trace env sched i g c Hg Hc)
    as (r & n & werr & cerr & [[Hr Hpre] | (e & Hr & Hpre)]);
    destruct (proj i (plog (serve env sched))) as [|a tr]; auto;
    apply prefix_cons_inv in Hpre; destruct Hpre as [-> Hpre]; right; exists r;
    simpl; rewrite Nat.eqb_refl; f_equal.
  - destruct tr as [|a1 tr]; auto.
    apply prefix_cons_inv in Hpre; destruct Hpre as [-> Hpre]. simpl.
    destruct tr as [|a2 tr]; auto.
    apply prefix_cons_inv in Hpre; destruct Hpre as [-> Hpre]. simpl.
    destruct tr as [|a3 tr]; [destruct (Nat.eqb c c); auto|].
    apply prefix_cons_inv in Hpre; destruct Hpre as [-> Hpre]. simpl.
    apply prefix_nil_inv in Hpre. subst. reflexivity.
  - destruct tr as [|a1 tr]; auto.
    apply prefix_cons_inv in Hpre; destruct Hpre as [-> Hpre]. simpl.
    destruct tr as [|a2 tr]; auto.
    apply prefix_cons_inv in Hpre; destruct Hpre as [-> Hpre]. simpl.
    apply prefix_nil_inv in Hpre. subst. reflexivity.
Qed.

Lemma handler_written env sched i g c :
  nth_error (threads (serve env sched)) i = Some g -> g_conn g = Some c ->
  written c (proj i (plog (serve env sched))) = [] \/
  written c (proj i (plog (serve env sched))) = [bytes_of Server.response].
Proof.
  intros Hg Hc.
  destruct (handler_goroutine_trace env sched i g c Hg Hc)
    as (r & n & werr & cerr & [[Hr Hpre] | (e & Hr & Hpre)]);
    destruct (proj i (plog (serve env sched))) as [|a tr]; auto;
    apply prefix_cons_inv in Hpre; destruct Hpre as [-> Hpre];
    (destruct tr as [|a1 tr]; [left; reflexivity|]);
    apply prefix_cons_inv in Hpre; destruct Hpre as [-> Hpre];
    (destruct tr as [|a2 tr]; [left; reflexivity|]);
    apply prefix_cons_inv in Hpre; destruct Hpre as [-> Hpre].
  - right. simpl. rewrite Nat.eqb_refl. f_equal.
    destruct tr as [|a3 tr]; auto.
    apply prefix_cons_inv in Hpre; destruct Hpre as [-> Hpre].
    apply prefix_nil_inv in Hpre. subst. reflexivity.
  - apply prefix_nil_inv in Hpre. subst. left. reflexivity.
Qed.

(** A goroutine of the server that has returned stands at the end of [do]. *)
Lemma returned_handler_trace env sched i g c :
  nth_error (threads (serve env sched)) i = Some g -> g_conn g = Some c ->
  observe (g_code g) = RetF tt ->
  exists r n werr cerr,
    rd_err r = None /\
    proj i (plog (serve env sched)) =
      [ ARead c 1024 r; ASleep 8000000000;
        AWrite c (bytes_of Server.response) n werr; AClose c cerr ].
Proof.
  intros Hg Hc Hret.
  destruct (serve_prel env sched) as (Hlog & _ & Hth).
  pose proof (Forall2_nth_error _ _ _ i Hth) as Hi. rewrite Hg in Hi.
  destruct (nth_error (threads (arun env sched ainit)) i) as [ag|] eqn:Hag;
    [|contradiction].
  destruct Hi as [E Hat].
  pose proof (at_pos_step _ _ env [] Hat) as Hs.
  unfold thread_step in Hs. rewrite Hret in Hs.
  destruct (astep env [] (g_code ag)) as [u|?|? ?|? ?|?] eqn:Hstep; simpl in Hs;
    try contradiction.
  apply astep_done in Hstep.
  assert (Hc' : g_conn ag = Some c) by congruence.
  pose proof (arun_linv env sched _ ainit_inv ainit_linv i ag c Hag Hc') as Hloc.
  rewrite Hstep in Hloc. simpl in Hloc. rewrite Hlog.
  destruct Hloc as (r & n & e & ce & Hr & ->). eauto 10.
Qed.

Lemma after_failed_write env sched i c r d b n e rest :
  proj i (plog (serve env sched)) =
    ARead c 1024 r :: ASleep d :: AWrite c b n (Some e) :: rest ->
  rest = [] \/ exists cerr, rest = [AClose c cerr].
Proof.
  intros Hp.
  assert (Hin : In (i, ARead c 1024 r) (plog (serve env sched))).
  { apply proj_in. rewrite Hp. left. reflexivity. }
  destruct (serve_owner env sched _ _ c Hin eq_refl) as (g & Hg & Hc).
  destruct (handler_goroutine_trace env sched i g c Hg Hc)
    as (r' & n' & werr & cerr & [[Hr' Hpre] | (e' & Hr' & Hpre)]);
    rewrite Hp in Hpre;
    apply prefix_cons_inv in Hpre; destruct Hpre as [_ Hpre];
    apply prefix_cons_inv in Hpre; destruct Hpre as [E Hpre]; try discriminate.
  apply prefix_cons_inv in Hpre; destruct Hpre as [_ Hpre].
  destruct rest as [|a rest]; auto. right.
  apply prefix_cons_inv in Hpre; destruct Hpre as [-> Hpre].
  apply prefix_nil_inv in Hpre. subst. eauto.
Qed.

(** ** Claims about the handler *)

(** C2: when the read succeeds, the handler writes to the connection
    exactly one byte sequence, the same for every connection: the status
    line [HTTP/1.1 200 OK], the empty line that ends the header, and the text
    [Hey Client!] with its line end; the write is followed by the close of
    the connection, which is the last thing the handler does. Inside the
    server, under any scheduling, a goroutine whose read of its connection
    has succeeded has, after three more turns in a process that is still
    running, written the response once and closed the connection. *)
Theorem do_writes_fixed_response (env : Env) :
  (forall h conn fuel,
     rd_err (read_answer env h conn) = None -> (5 <= fuel)%nat ->
     exists tr,
       run_goroutine fuel env h (Server.do conn) = (tr, Returned tt) /\
       written conn tr = [bytes_of Server.response] /\
       Server.response = (http_status_line ++ CRLF ++ http_body_text ++ CRLF)%string /\
       exists pre n werr cerr,
         tr = pre ++ [AWrite conn (bytes_of Server.response) n werr; AClose conn cerr]) /\
  (forall sched sched' i c r rest,
     let p := serve env sched in
     let p' := server_run env sched' p in
     proj i (plog p) = ARead c 1024 r :: rest -> rd_err r = None ->
     (3 <= count_occ Nat.eq_dec sched' i)%nat ->
     pstatus p' = Running ->
     exists n werr cerr,
       proj i (plog p') =
         [ ARead c 1024 r; ASleep 8000000000;
           AWrite c (bytes_of Server.response) n werr; AClose c cerr ] /\
       written c (proj i (plog p')) = [bytes_of Server.response]).
Proof.
  split.
  - intros h conn fuel Hr Hf. exists (success_trace env h conn).
    split; [apply do_run_ok; assumption|].
    split.
    { unfold success_trace. simpl. rewrite Nat.eqb_refl. reflexivity. }
    split; [reflexivity|].
    exists [ARead conn Server.buffer_size (read_answer env h conn); ASleep (Second * 8)].
    do 3 eexists. reflexivity.
  - intros sched sched' i c r rest p p' Hp Hr Hn Hrun.
    pose proof (serve_prel env sched) as Hrel. fold p in Hrel.
    pose proof (run_prel env sched' _ _ Hrel) as (Hlog' & Hst' & _). fold p' in Hlog', Hst'.
    destruct Hrel as (Hlog & _ & _).
    rewrite Hlog in Hp. rewrite Hst' in Hrun. rewrite Hlog'.
    destruct (handler_completes env sched' _ i c r rest
                (arun_inv env sched _ ainit_inv)
                (arun_linv env sched _ ainit_inv ainit_linv) Hp Hr ltac:(lia) Hrun)
      as (n & werr & cerr & E).
    exists n, werr, cerr. split; [exact E|].
    rewrite E. simpl. rewrite Nat.eqb_refl. reflexivity.
Qed.

Lemma do_writes_fixed_response_witness :
  exists n werr cerr,
    proj 1 (plog (server_run (env_ok []) [1; 0; 1; 1]%nat
                    (serve (env_ok []) (repeat 0%nat 8 ++ [1]%nat)))) =
      [ ARead 3%nat 1024 (mkRead [] None); ASleep 8000000000;
        AWrite 3%nat (bytes_of Server.response) n werr; AClose 3%nat cerr ] /\
    written 3%nat
      (proj 1 (plog (server_run (env_ok []) [1; 0; 1; 1]%nat
                       (serve (env_ok []) (repeat 0%nat 8 ++ [1]%nat))))) =
      [bytes_of Server.response].
Proof.
  apply (proj2 (do_writes_fixed_response (env_ok []))
           (repeat 0%nat 8 ++ [1]%nat) [1; 0; 1; 1]%nat 1%nat 3%nat (mkRead [] None) []).
  - vm_compute. reflexivity.
  - reflexivity.
  - vm_compute. apply le_n.
  - vm_compute. reflexivity.
Defined.

(** C3: whatever the two environments deliver to the read (any request
    bytes, in any history, on any connection), if the read succeeds in both
    runs the handler writes the same bytes in both, and makes the same calls
    apart from the connection they are made on. Inside the server, under any
    scheduling and in any two executions, two goroutines that have written
    to their connections have written the same bytes. *)
Theorem response_ignores_request (env1 env2 : Env) :
  (forall h1 h2 conn1 conn2 fuel1 fuel2,
     rd_err (read_answer env1 h1 conn1) = None ->
     rd_err (read_answer env2 h2 conn2) = None ->
     (5 <= fuel1)%nat -> (5 <= fuel2)%nat ->
     let tr1 := fst (run_goroutine fuel1 env1 h1 (Server.do conn1)) in
     let tr2 := fst (run_goroutine fuel2 env2 h2 (Server.do conn2)) in
     written conn1 tr1 = written conn2 tr2 /\
     written conn1 tr1 = [bytes_of Server.response] /\
     (conn1 = conn2 -> map call_of tr1 = map call_of tr2)) /\
  (forall sched1 sched2 i1 i2 g1 g2 c1 c2,
     nth_error (threads (serve env1 sched1)) i1 = Some g1 -> g_conn g1 = Some c1 ->
     nth_error (threads (serve env2 sched2)) i2 = Some g2 -> g_conn g2 = Some c2 ->
     written c1 (proj i1 (plog (serve env1 sched1))) <> [] ->
     written c2 (proj i2 (plog (serve env2 sched2))) <> [] ->
     written c1 (proj i1 (plog (serve env1 sched1))) =
     written c2 (proj i2 (plog (serve env2 sched2)))).
Proof.
  split.
  - intros h1 h2 conn1 conn2 fuel1 fuel2 R1 R2 F1 F2 tr1 tr2. subst tr1 tr2.
    rewrite !do_run_ok by assumption.
    unfold success_trace. simpl. rewrite !Nat.eqb_refl.
    repeat split. intros ->. reflexivity.
  - intros sched1 sched2 i1 i2 g1 g2 c1 c2 Hg1 Hc1 Hg2 Hc2 N1 N2.
    destruct (handler_written env1 sched1 i1 g1 c1 Hg1 Hc1) as [E1 | E1];
      [contradiction|].
    destruct (handler_written env2 sched2 i2 g2 c2 Hg2 Hc2) as [E2 | E2];
      [contradiction|].
    congruence.
Qed.

Lemma response_ignores_request_witness :
  let tr1 := fst (run_goroutine 5 (env_ok (bytes_of "GET / HTTP/1.1")) []
                    (Server.do 3%nat)) in
  let tr2 := fst (run_goroutine 7 (env_ok (bytes_of "DELETE /users/42 HTTP/1.0"))
                    [ANow 5] (Server.do 3%nat)) in
  written 3%nat tr1 = written 3%nat tr2 /\
  written 3%nat tr1 = [bytes_of Server.response] /\
  (3%nat = 3%nat -> map call_of tr1 = map call_of tr2).
Proof.
  apply (proj1 (response_ignores_request
                  (env_ok (bytes_of "GET / HTTP/1.1"))
                  (env_ok (bytes_of "DELETE /users/42 HTTP/1.0")))
           [] [ANow 5] 3%nat 3%nat 5%nat 7%nat); try reflexivity; lia.
Defined.

(** C4: a complete run of the handler reads the connection exactly once,
    into a buffer of 1024 bytes, whether the read succeeds or fails and
    however few bytes it delivers. On a connection that delivers the front
    of the pending request [req], the handler receives the delivered front
    only and the rest of [req], at least everything past the first 1024
    bytes, is never read. Inside the server, under any scheduling, the
    goroutine started for a connection has read it at most once, with a
    buffer of 1024 bytes. *)
Theorem do_reads_once (env : Env) :
  (forall h conn fuel req,
     (5 <= fuel)%nat ->
     rd_data (read_answer env h conn) = firstn (rd_n (read_answer env h conn)) req ->
     (rd_n (read_answer env h conn) <= 1024)%nat ->
     let tr := fst (run_goroutine fuel env h (Server.do conn)) in
     let n := rd_n (read_answer env h conn) in
     reads conn tr = [(1024%nat, read_answer env h conn)] /\
     received conn tr = firstn n req /\
     req = received conn tr ++ skipn n req /\
     (List.length req - 1024 <= List.length (skipn n req))%nat) /\
  (forall sched i g c,
     nth_error (threads (serve env sched)) i = Some g -> g_conn g = Some c ->
     reads c (proj i (plog (serve env sched))) = [] \/
     exists r, reads c (proj i (plog (serve env sched))) = [(1024%nat, r)]).
Proof.
  split; [|intros sched i g c; apply handler_reads_once].
  intros h conn fuel req Hf Hd Hn tr n.
  assert (Hreads : reads conn tr = [(1024%nat, read_answer env h conn)]).
  { subst tr. destruct (rd_err (read_answer env h conn)) as [e|] eqn:Hr.
    - rewrite (@do_run_err env h conn fuel e) by (auto; lia).
      unfold failure_trace. simpl. rewrite Nat.eqb_refl. reflexivity.
    - rewrite do_run_ok by assumption.
      unfold success_trace. simpl. rewrite Nat.eqb_refl. reflexivity. }
  assert (Hrec : received conn tr = firstn n req).
  { unfold received. rewrite Hreads. simpl. rewrite app_nil_r. exact Hd. }
  split; [exact Hreads|]. split; [exact Hrec|]. split.
  - rewrite Hrec. symmetry. apply firstn_skipn.
  - rewrite length_skipn. subst n. lia.
Qed.

Lemma do_reads_once_witness :
  let req := repeat Byte.x41 1030 in
  let env := env_ok req in
  let tr := fst (run_goroutine 5 env [] (Server.do 3%nat)) in
  let n := rd_n (read_answer env [] 3%nat) in
  reads 3%nat tr = [(1024%nat, read_answer env [] 3%nat)] /\
  received 3%nat tr = firstn n req /\
  req = received 3%nat tr ++ skipn n req /\
  (List.length req - 1024 <= List.length (skipn n req))%nat.
Proof.
  apply (proj1 (do_reads_once (env_ok (repeat Byte.x41 1030))) [] 3%nat 5%nat
           (repeat Byte.x41 1030)).
  - lia.
  - vm_compute. reflexivity.
  - vm_compute. apply le_n.
Defined.

(** C5: when the read succeeds the handler does, in this order and nothing
    else, one read of the connection into the 1024-byte buffer, the sleep
    of eight seconds, one write of the fixed response and the close of the
    connection, and then returns. Inside the server, under any scheduling,
    what the goroutine started for a connection has done so far is always
    an initial part of that sequence, or of the read failure followed by
    the print and the exit. *)
Theorem do_steps_in_order (env : Env) :
  (forall h conn fuel,
     rd_err (read_answer env h conn) = None -> (5 <= fuel)%nat ->
     exists r n werr cerr,
       rd_err r = None /\
       run_goroutine fuel env h (Server.do conn) =
         ([ ARead conn 1024 r;
            ASleep 8000000000;
            AWrite conn (bytes_of Server.response) n werr;
            AClose conn cerr ],
          Returned tt)) /\
  (forall sched i g c,
     nth_error (threads (serve env sched)) i = Some g -> g_conn g = Some c ->
     exists r n werr cerr,
       (rd_err r = None /\
        prefix_of (proj i (plog (serve env sched)))
          [ ARead c 1024 r; ASleep 8000000000;
            AWrite c (bytes_of Server.response) n werr; AClose c cerr ]) \/
       (exists e, rd_err r = Some e /\
        prefix_of (proj i (plog (serve env sched)))
          [ ARead c 1024 r;
            ALogPrint ("error reading from connection: " ++ e)%string;
            AExit 1 ])).
Proof.
  split.
  - intros h conn fuel Hr Hf.
    exists (read_answer env h conn), (fst (write_answer env h conn)),
      (snd (write_answer env h conn)), (close_answer env h conn).
    split; [exact Hr|]. rewrite do_run_ok by assumption. reflexivity.
  - intros sched i g c. apply handler_goroutine_trace.
Qed.

Lemma do_steps_in_order_witness :
  exists r n werr cerr,
    rd_err r = None /\
    run_goroutine 6 (env_ok []) [] (Server.do 3%nat) =
      ([ ARead 3%nat 1024 r;
         ASleep 8000000000;
         AWrite 3%nat (bytes_of Server.response) n werr;
         AClose 3%nat cerr ],
       Returned tt).
Proof.
  apply (proj1 (do_steps_in_order (env_ok [])) [] 3%nat 6%nat); [reflexivity | lia].
Defined.

(** C8: in every run of the handler that returns, the close of the
    connection follows the write and is the last action, whatever the write
    answered; the body hands back the deferred close after the write
    without looking at the write's result. Inside the server, under any
    scheduling, a handler goroutine that has returned has read, slept,
    written and closed its connection, in this order. *)
Theorem close_follows_write (env : Env) :
  (forall h conn fuel tr,
     run_goroutine fuel env h (Server.do conn) = (tr, Returned tt) ->
     exists pre cerr,
       tr = pre ++ [ AWrite conn (bytes_of Server.response)
                       (fst (write_answer env h conn)) (snd (write_answer env h conn));
                     AClose conn cerr ] /\
       existsb (is_close conn) pre = false /\
       run_goroutine 4 env h (Server.do_body conn) =
         (removelast tr, Returned [ (_ <- Server.sys (ConnClose conn) ;; Ret tt) ])) /\
  (forall sched i g c,
     nth_error (threads (serve env sched)) i = Some g -> g_conn g = Some c ->
     observe (g_code g) = RetF tt ->
     exists r n werr cerr,
       rd_err r = None /\
       proj i (plog (serve env sched)) =
         [ ARead c 1024 r; ASleep 8000000000;
           AWrite c (bytes_of Server.response) n werr; AClose c cerr ]).
Proof.
  split; [|intros sched i g c; apply returned_handler_trace].
  intros h conn fuel tr Hrun.
  edestruct do_run_finished as [(Hr & -> & _) | (e & _ & _ & Ho)];
    [exact Hrun | discriminate | | discriminate].
  exists [ARead conn Server.buffer_size (read_answer env h conn); ASleep (Second * 8)].
  exists (close_answer env h conn).
  split; [reflexivity|]. split; [reflexivity|].
  rewrite do_body_run_ok_4 by assumption. reflexivity.
Qed.

Lemma close_follows_write_witness :
  exists pre cerr,
    fst (run_goroutine 5 (env_write_fails "broken pipe") [] (Server.do 3%nat)) =
      pre ++ [ AWrite 3%nat (bytes_of Server.response)
                 (fst (write_answer (env_write_fails "broken pipe") [] 3%nat))
                 (snd (write_answer (env_write_fails "broken pipe") [] 3%nat));
               AClose 3%nat cerr ] /\
    existsb (is_close 3%nat) pre = false /\
    run_goroutine 4 (env_write_fails "broken pipe") [] (Server.do_body 3%nat) =
      (removelast (fst (run_goroutine 5 (env_write_fails "broken pipe") []
                          (Server.do 3%nat))),
       Returned [ (_ <- Server.sys (ConnClose 3%nat) ;; Ret tt) ]).
Proof.
  apply (proj1 (close_follows_write (env_write_fails "broken pipe")) [] 3%nat 5%nat).
  reflexivity.
Defined.

(** C9: when the read fails the handler prints the error and exits the
    process with status 1; the body never gets to hand back its deferred
    close, and no close of the connection is performed. Inside the server,
    under any scheduling, a goroutine whose read has failed does nothing
    afterwards but that print and that exit, and never closes the
    connection. *)
Theorem read_error_never_closes (env : Env) :
  (forall h conn fuel e,
     rd_err (read_answer env h conn) = Some e -> (3 <= fuel)%nat ->
     exists r tr,
       rd_err r = Some e /\
       tr = [ ARead conn 1024 r;
              ALogPrint ("error reading from connection: " ++ e)%string;
              AExit 1 ] /\
       run_goroutine fuel env h (Server.do conn) = (tr, Exited 1) /\
       run_goroutine fuel env h (Server.do_body conn) = (tr, Exited 1) /\
       existsb (is_close conn) tr = false) /\
  (forall sched i c r rest e,
     proj i (plog (serve env sched)) = ARead c 1024 r :: rest ->
     rd_err r = Some e ->
     prefix_of rest
       [ALogPrint ("error reading from connection: " ++ e)%string; AExit 1] /\
     existsb (is_close c) (proj i (plog (serve env sched))) = false).
Proof.
  split.
  - intros h conn fuel e Hr Hf.
    exists (read_answer env h conn), (failure_trace env h conn e).
    split; [exact Hr|]. split; [reflexivity|].
    split; [apply do_run_err; assumption|].
    split; [|reflexivity].
    eapply run_goroutine_more; [apply do_body_run_err_3; eassumption | discriminate | lia].
  - intros sched i c r rest e Hp Hr.
    pose proof (failed_reader_trace env sched i c r rest e Hp Hr) as Hpre.
    split; [exact Hpre|]. rewrite Hp.
    destruct rest as [|a1 rest]; [reflexivity|].
    apply prefix_cons_inv in Hpre. destruct Hpre as [-> Hpre].
    destruct rest as [|a2 rest]; [reflexivity|].
    apply prefix_cons_inv in Hpre. destruct Hpre as [-> Hpre].
    apply prefix_nil_inv in Hpre. subst. reflexivity.
Qed.

Lemma read_error_never_closes_witness :
  exists r tr,
    rd_err r = Some "EOF" /\
    tr = [ ARead 3%nat 1024 r;
           ALogPrint ("error reading from connection: " ++ "EOF")%string;
           AExit 1 ] /\
    run_goroutine 3 (env_read_fails "EOF") [] (Server.do 3%nat) = (tr, Exited 1) /\
    run_goroutine 3 (env_read_fails "EOF") [] (Server.do_body 3%nat) = (tr, Exited 1) /\
    existsb (is_close 3%nat) tr = false.
Proof.
  apply (proj1 (read_error_never_closes (env_read_fails "EOF")) [] 3%nat 3%nat "EOF");
    [reflexivity | lia].
Defined.

(** C10: the answer of the write changes nothing. A handler whose write
    fails makes the same calls, in the same order, as one whose write
    succeeds; it prints nothing, does not exit the process, closes the
    connection after the write and returns. Inside the server, under any
    scheduling, a goroutine whose write has failed does nothing afterwards
    but close the connection. *)
Theorem write_result_ignored (env1 env2 : Env) :
  (forall h conn fuel e,
     rd_err (read_answer env1 h conn) = None ->
     rd_err (read_answer env2 h conn) = None ->
     snd (write_answer env1 h conn) = None ->
     snd (write_answer env2 h conn) = Some e ->
     (5 <= fuel)%nat ->
     exists tr1 tr2,
       run_goroutine fuel env1 h (Server.do conn) = (tr1, Returned tt) /\
       run_goroutine fuel env2 h (Server.do conn) = (tr2, Returned tt) /\
       map call_of tr1 = map call_of tr2 /\
       existsb is_report tr2 = false /\
       exists pre n cerr,
         tr2 = pre ++ [AWrite conn (bytes_of Server.response) n (Some e);
                       AClose conn cerr]) /\
  (forall sched i c r d b n e rest,
     proj i (plog (serve env2 sched)) =
       ARead c 1024 r :: ASleep d :: AWrite c b n (Some e) :: rest ->
     rest = [] \/ exists cerr, rest = [AClose c cerr]).
Proof.
  split; [|intros sched i c r d b n e rest; apply after_failed_write].
  intros h conn fuel e R1 R2 W1 W2 Hf.
  exists (success_trace env1 h conn), (success_trace env2 h conn).
  split; [apply do_run_ok; assumption|].
  split; [apply do_run_ok; assumption|].
  split; [reflexivity|]. split; [reflexivity|].
  exists [ARead conn Server.buffer_size (read_answer env2 h conn); ASleep (Second * 8)].
  exists (fst (write_answer env2 h conn)), (close_answer env2 h conn).
  unfold success_trace. rewrite W2. reflexivity.
Qed.

Lemma write_result_ignored_witness :
  exists tr1 tr2,
    run_goroutine 5 (env_ok []) [] (Server.do 3%nat) = (tr1, Returned tt) /\
    run_goroutine 5 (env_write_fails "broken pipe") [] (Server.do 3%nat) =
      (tr2, Returned tt) /\
    map call_of tr1 = map call_of tr2 /\
    existsb is_report tr2 = false /\
    exists pre n cerr,
      tr2 = pre ++ [AWrite 3%nat (bytes_of Server.response) n (Some "broken pipe");
                    AClose 3%nat cerr].
Proof.
  apply (proj1 (write_result_ignored (env_ok []) (env_write_fails "broken pipe"))
           [] 3%nat 5%nat "broken pipe"); try reflexivity; lia.
Defined.

(** * Further properties of the TCP server *)

(** ** What the acceptor has done *)

Lemma served_snoc s l its ct :
  served s l (its ++ [ct]) = served s l its ++ iteration s l ct.
Proof.
  unfold served. rewrite flat_map_app. cbn [flat_map]. rewrite app_nil_r, app_assoc. reflexivity.
Qed.

Lemma astep_act_mainlocal {env h q a q'} tr :
  astep env h q = SAct a q' -> main_pos q = true ->
  main_local q tr -> main_local q' (tr ++ [a]).
Proof.
  intros H Hm Hl. astep_cases H; cbn [main_pos main_local] in *; try discriminate.
  all: try (destruct Hl as (its & ->)).
  - subst. reflexivity.
  - subst. 
    destruct (env (Listener * option error)%type h (NetListen "tcp" ":4221"))
      as [l [e|]]; cbn [fst snd main_local].
    + left. exists start, l, e. auto.
    + exists []. reflexivity.
  - exists its. reflexivity.
  - destruct (env (Conn * option error)%type h (LAccept l)) as [c [e|]]; cbn [fst snd main_local].
    + right. exists start, l, its, c, e. rewrite <- app_assoc. auto.
    + exists its. rewrite <- app_assoc. reflexivity.
  - exists its. rewrite <- app_assoc. reflexivity.
  - exists its, now. rewrite <- app_assoc. reflexivity.
  - exists tr, msg. auto.
Qed.

Lemma in_proj i a l : In (i, a) l -> In a (proj i l).
Proof.
  intros H. unfold proj. apply in_map_iff. exists (i, a). split; auto.
  apply filter_In. split; auto. simpl. apply Nat.eqb_refl.
Qed.

Lemma running_no_exit (p : process pos) i code :
  ainv p -> pstatus p = Running -> ~ In (AExit code) (proj i (plog p)).
Proof.
  intros Hinv Hst Hin. apply proj_in in Hin.
  pose proof (inv_status _ Hinv) as Hs. rewrite Hst in Hs.
  rewrite forallb_forall in Hs. specialize (Hs _ Hin). discriminate.
Qed.

Lemma minv_step env i p : ainv p -> minv p -> minv (step astep PRead env i p).
Proof.
  intros Hinv Hl. unfold step.
  destruct (pstatus p) eqn:Hst; [|exact Hl].
  destruct (nth_error (threads p) i) as [g|] eqn:Hg; [|exact Hl].
  destruct (inv_shape _ Hinv) as (q0 & hs & Hth & Hm & Hhs & _ & _).
  pose proof (Hl (mkG None q0)) as Hloc. rewrite Hth in Hloc.
  specialize (Hloc eq_refl). cbn [g_code] in Hloc.
  destruct i as [|j].
  - rewrite Hth in Hg. simpl in Hg. inversion Hg; subst g. cbn [g_code g_conn].
    destruct (astep env (history p) q0) as [r|q'|a q'|c q'|code] eqn:Hstep.
    + intros g0 H0. cbn [threads plog] in *. rewrite Hth in H0. simpl in H0.
      inversion H0; subst g0. exact Hloc.
    + intros g0 H0. cbn [threads plog] in *. rewrite Hth in H0. simpl in H0.
      inversion H0; subst g0. cbn [g_code].
      destruct (astep_silent Hstep) as (s & l & -> & ->). exact Hloc.
    + intros g0 H0. cbn [threads plog] in *. rewrite Hth in H0. simpl in H0.
      inversion H0; subst g0. cbn [g_code].
      rewrite proj_snoc, Nat.eqb_refl.
      eapply astep_act_mainlocal; eauto.
    + intros g0 H0. cbn [threads plog] in *. rewrite Hth in H0. simpl in H0.
      inversion H0; subst g0. cbn [g_code].
      rewrite proj_snoc, Nat.eqb_refl.
      destruct (astep_spawn Hstep) as (s & l & -> & ->).
      destruct Hloc as (its & t & ->). exists (its ++ [(c, t)]).
      rewrite served_snoc, <- app_assoc. reflexivity.
    + intros g0 H0. cbn [threads plog] in *. rewrite Hth in H0. simpl in H0.
      inversion H0; subst g0. cbn [g_code].
      rewrite proj_snoc, Nat.eqb_refl.
      destruct (astep_exit Hstep) as (-> & ->).
      destruct Hloc as (tr0 & m & Hf & [E | E]).
      * exists tr0, m. split; auto. right. rewrite E, <- app_assoc. reflexivity.
      * exfalso. apply (running_no_exit p 0%nat 1 Hinv Hst). rewrite E.
        apply in_or_app. right. simpl. auto.
  - assert (Hkeep : forall a, proj 0 (plog p ++ [(S j, a)]) = proj 0 (plog p)).
    { intros a. rewrite proj_snoc. reflexivity. }
    destruct (astep env (history p) (g_code g)) as [r|q'|a q'|c q'|code] eqn:Hstep;
      intros g0 H0; cbn [threads plog] in *; rewrite ?Hkeep;
      rewrite Hth in H0; simpl in H0; inversion H0; subst g0; exact Hloc.
Qed.

Lemma ainit_minv : minv ainit.
Proof. intros g H. simpl in H. inversion H; subst. reflexivity. Qed.

Lemma arun_minv env sched : forall p, ainv p -> minv p -> minv (arun env sched p).
Proof.
  induction sched as [|i sched IH]; intros p H L; simpl; auto.
  apply IH; [apply ainv_step | apply minv_step]; assumption.
Qed.

Lemma prefix_of_refl {A} (l : list A) : prefix_of l l.
Proof. exists []. symmetry. apply app_nil_r. Qed.

Lemma fatal_form_trace tr m tail :
  fatal_form tr m -> prefix_of tail [ALogPrint m; AExit 1] -> acceptor_trace (tr ++ tail).
Proof.
  intros [(s & l & e & -> & ->) | (s & l & its & c & e & -> & ->)] Hp;
    right; exists s; right.
  - left. exists l, e, tail. auto.
  - right. exists l, its, ([waiting; AAccept l c (Some e)] ++ tail).
    split; [rewrite <- app_assoc; reflexivity|].
    right. exists c, e, tail. auto.
Qed.

Lemma main_local_trace q tr : main_local q tr -> acceptor_trace tr.
Proof.
  destruct q; cbn [main_local]; intros H; try contradiction.
  - left. exact H.
  - right. exists start. left. exact H.
  - destruct H as (its & ->). right. exists start. right. right.
    exists l, its, []. split; [symmetry; apply app_nil_r|].
    left. exists (0%nat, 0). exists (iteration start l (0%nat, 0)). reflexivity.
  - destruct H as (its & ->). right. exists start. right. right.
    exists l, its, [waiting]. split; auto.
    left. exists (0%nat, 0). eexists. reflexivity.
  - destruct H as (its & ->). right. exists start. right. right.
    eexists l, its, _. split; [reflexivity|].
    left. exists (c, 0). eexists. reflexivity.
  - destruct H as (its & ->). right. exists start. right. right.
    eexists l, its, _. split; [reflexivity|].
    left. exists (c, now). eexists. reflexivity.
  - destruct H as (its & t & ->). right. exists start. right. right.
    eexists l, its, _. split; [reflexivity|].
    left. exists (c, t). eexists. reflexivity.
  - destruct H as (its & ->). right. exists start. right. right.
    exists l, its, []. split; [symmetry; apply app_nil_r|].
    left. exists (0%nat, 0). exists (iteration start l (0%nat, 0)). reflexivity.
  - rewrite <- (app_nil_r tr). eapply fatal_form_trace; eauto.
    exists [ALogPrint msg; AExit 1]. reflexivity.
  - destruct H as (tr0 & m & Hf & [-> | ->]); eapply fatal_form_trace; eauto.
    + exists [AExit 1]. reflexivity.
    + apply prefix_of_refl.
Qed.

Lemma serve_main_local env sched :
  exists q, main_local q (proj 0 (plog (serve env sched))).
Proof.
  destruct (serve_prel env sched) as (Hlog & _ & _). rewrite Hlog.
  pose proof (arun_inv env sched ainit ainit_inv) as Hinv.
  pose proof (arun_minv env sched ainit ainit_inv ainit_minv) as Hm.
  destruct (inv_shape _ Hinv) as (q0 & hs & Hth & _).
  exists q0. apply (Hm (mkG None q0)). rewrite Hth. reflexivity.
Qed.

Lemma serve_acceptor_trace env sched :
  acceptor_trace (proj 0 (plog (serve env sched))).
Proof.
  destruct (serve_main_local env sched) as (q & H).
  eapply main_local_trace; eauto.
Qed.

(** X1: in every execution, what the main goroutine has done so far is the
    clock reading of the package initialisation, then the bind of "tcp"
    ":4221", then one whole iteration of the loop per connection served
    (the waiting line, a successful accept on the bound listener, a clock
    reading, the line with that reading minus the start, [go do(conn)]),
    then the beginning of one more iteration, or the failed bind or accept
    followed by the message of [log.Fatal] and the exit with status 1. *)
Theorem acceptor_grammar (env : Env) (sched : list nat) :
  acceptor_trace (proj 0 (plog (serve env sched))).
Proof.
  destruct (serve_prel env sched) as (Hlog & _ & _). rewrite Hlog.
  pose proof (arun_inv env sched ainit ainit_inv) as Hinv.
  pose proof (arun_minv env sched ainit ainit_inv ainit_minv) as Hm.
  destruct (inv_shape _ Hinv) as (q0 & hs & Hth & _).
  apply (main_local_trace q0). apply (Hm (mkG None q0)). rewrite Hth. reflexivity.
Qed.

(** ** Who does what *)

Lemma astep_act_roles {env h q a q'} :
  astep env h q = SAct a q' ->
  (main_pos q = true -> handler_action a = false) /\
  (forall c, handler_pos c q = true -> acceptor_action a = false).
Proof.
  intros H. astep_cases H; simpl; split; try discriminate; auto; intros; discriminate.
Qed.

Lemma rinv_step env i p : ainv p -> rinv p -> rinv (step astep PRead env i p).
Proof.
  intros Hinv Hr. unfold step.
  destruct (pstatus p) eqn:Hst; [|exact Hr].
  destruct (nth_error (threads p) i) as [g|] eqn:Hg; [|exact Hr].
  destruct (inv_shape _ Hinv) as (q0 & hs & Hth & Hm & Hhs & _ & _).
  pose proof (shape_nth Hth Hhs Hg) as Hwho.
  destruct (astep env (history p) (g_code g)) as [r|q'|a q'|c q'|code] eqn:Hstep.
  - destruct i; auto.
  - exact Hr.
  - intros j b Hin. cbn [plog] in Hin. apply in_app_or in Hin.
    destruct Hin as [Hin | [E | []]]; [apply Hr; exact Hin|].
    inversion E; subst j b. destruct (astep_act_roles Hstep) as [Hmain Hhandler].
    destruct Hwho as [[-> ->] | (k & c0 & -> & _ & _ & Hp)].
    + split; auto. intros Ha. rewrite (Hmain Hm) in Ha. discriminate.
    + split; [|intros _; discriminate]. intros Ha.
      rewrite (Hhandler c0 Hp) in Ha. discriminate.
  - intros j b Hin. cbn [plog] in Hin. apply in_app_or in Hin.
    destruct Hin as [Hin | [E | []]]; [apply Hr; exact Hin|].
    inversion E; subst j b. destruct (astep_spawn Hstep) as (s & l & Hq & _).
    destruct Hwho as [[-> ->] | (k & c0 & -> & _ & _ & Hp)].
    + split; auto. simpl. discriminate.
    + rewrite Hq in Hp. discriminate.
  - intros j b Hin. cbn [plog] in Hin. apply in_app_or in Hin.
    destruct Hin as [Hin | [E | []]]; [apply Hr; exact Hin|].
    inversion E; subst j b. simpl. split; discriminate.
Qed.

Lemma arun_rinv env sched : forall p, ainv p -> rinv p -> rinv (arun env sched p).
Proof.
  induction sched as [|i sched IH]; intros p H L; simpl; auto.
  apply IH; [apply ainv_step | apply rinv_step]; assumption.
Qed.

Lemma serve_rinv env sched : rinv (arun env sched ainit).
Proof. apply arun_rinv; [apply ainit_inv|]. intros i a []. Qed.

Lemma serve_roles env sched i a :
  In (i, a) (plog (serve env sched)) ->
  (acceptor_action a = true -> i = 0%nat) /\
  (handler_action a = true -> i <> 0%nat).
Proof.
  destruct (serve_prel env sched) as (-> & _ & _). apply serve_rinv.
Qed.

(** X2: in every execution of the server the two kinds of goroutine keep to
    their own calls. Reading the clock, binding the port, accepting,
    printing with [fmt.Println] and starting a goroutine are done by the
    main goroutine alone; reading, sleeping, writing and closing are never
    done by the main goroutine, only by the goroutines that [go do(conn)]
    started. *)
Theorem goroutine_roles (env : Env) (sched : list nat) i a :
  In (i, a) (plog (serve env sched)) ->
  (acceptor_action a = true -> i = 0%nat) /\
  (handler_action a = true -> i <> 0%nat).
Proof.
  intros Hin.
  destruct (serve_prel env sched) as (Hlog & _ & _). rewrite Hlog in Hin.
  assert (Hr : rinv (arun env sched ainit)).
  { apply arun_rinv; [apply ainit_inv|]. intros j b []. }
  exact (Hr i a Hin).
Qed.

Lemma goroutine_roles_witness :
  (acceptor_action (AAccept 7%nat 3%nat None) = true -> 0%nat = 0%nat) /\
  (handler_action (AAccept 7%nat 3%nat None) = true -> 0%nat <> 0%nat).
Proof.
  apply (goroutine_roles (env_ok []) (repeat 0%nat 8 ++ [1; 1]%nat) 0%nat
           (AAccept 7%nat 3%nat None)).
  vm_compute. auto 10.
Defined.

(** ** The bind *)

Lemma filter_none {A} (f : A -> bool) l :
  (forall a, In a l -> f a = false) -> filter f l = [].
Proof.
  induction l as [|x l IH]; intros H; simpl; auto.
  rewrite (H x) by (left; reflexivity). apply IH. intros a Ha. apply H. right. exact Ha.
Qed.

Lemma filter_log_proj (f : action -> bool) l :
  (forall i a, In (i, a) l -> f a = true -> i = 0%nat) ->
  map snd (filter (fun x => f (snd x)) l) = filter f (proj 0 l).
Proof.
  unfold proj. induction l as [|[i a] l IH]; intros H; simpl; auto.
  assert (IH' := IH (fun j b Hin => H j b (or_intror Hin))).
  destruct (f a) eqn:Fa.
  - rewrite (H i a (or_introl eq_refl) Fa). simpl. rewrite Fa. simpl. f_equal. exact IH'.
  - destruct (Nat.eqb i 0); simpl; rewrite ?Fa; exact IH'.
Qed.

Lemma prefix_of_in {A} (a : A) l1 l2 : prefix_of l1 l2 -> In a l1 -> In a l2.
Proof. intros (rest & ->) H. apply in_or_app. left. exact H. Qed.

Lemma in_iterations {a s l its} :
  In a (flat_map (iteration s l) its) -> exists ct, In ct its /\ In a (iteration s l ct).
Proof. intros H. apply in_flat_map in H. exact H. Qed.

Lemma acceptor_trace_listens tr :
  acceptor_trace tr -> (List.length (filter is_listen tr) <= 1)%nat.
Proof.
  intros [-> | (s & [-> | [(l & e & tail & -> & Hp) | (l & its & tail & -> & Hp)]])];
    simpl; auto.
  - rewrite filter_none; [simpl; lia|].
    intros a Ha. apply (prefix_of_in _ _ _ Hp) in Ha.
    destruct Ha as [<- | [<- | []]]; reflexivity.
  - rewrite filter_app, filter_none, filter_none; [simpl; lia| |].
    + intros a Ha.
      destruct Hp as [(ct & Hp) | (c & e & tail' & -> & Hp)].
      * apply (prefix_of_in _ _ _ Hp) in Ha. simpl in Ha.
        repeat (destruct Ha as [<- | Ha]; [reflexivity|]). contradiction.
      * simpl in Ha. destruct Ha as [<- | [<- | Ha]]; try reflexivity.
        apply (prefix_of_in _ _ _ Hp) in Ha.
        destruct Ha as [<- | [<- | []]]; reflexivity.
    + intros a Ha. destruct (in_iterations Ha) as (ct & _ & Hin). simpl in Hin.
      repeat (destruct Hin as [<- | Hin]; [reflexivity|]). contradiction.
Qed.

(** What an action of the acceptor can be. *)
Lemma acceptor_trace_in tr a :
  acceptor_trace tr -> In a tr ->
  (exists s, a = ANow s) \/
  (exists l e, a = AListen "tcp" ":4221" l e /\ nth_error tr 1 = Some a) \/
  (exists m, a = ALogPrint m) \/
  a = AExit 1 \/
  (exists s l,
      firstn 2 tr = [ANow s; AListen "tcp" ":4221" l None] /\
      ((exists ct, In a (iteration s l ct)) \/ exists c e, a = AAccept l c (Some e))).
Proof.
  intros [-> | (s & [-> | [(l & e & tail & -> & Hp) | (l & its & tail & -> & Hp)]])] Hin.
  - contradiction.
  - destruct Hin as [<- | []]. eauto.
  - destruct Hin as [<- | [<- | Hin]]; eauto 6.
    apply (prefix_of_in _ _ _ Hp) in Hin.
    destruct Hin as [<- | [<- | []]]; eauto 6.
  - unfold served in Hin. rewrite <- app_assoc in Hin. simpl in Hin.
    destruct Hin as [<- | [<- | Hin]]; eauto 6.
    assert (Hit : forall ct, In a (iteration s l ct) ->
              exists s0 l0,
                firstn 2 (served s l its ++ tail) =
                  [ANow s0; AListen "tcp" ":4221" l0 None] /\
                ((exists ct0, In a (iteration s0 l0 ct0)) \/
                 exists c e, a = AAccept l0 c (Some e))).
    { intros ct H. exists s, l. split; [reflexivity|]. eauto. }
    apply in_app_or in Hin. destruct Hin as [Hin | Hin].
    + destruct (in_iterations Hin) as (ct & _ & Ha). do 4 right. eauto.
    + destruct Hp as [(ct & Hp) | (c & e & tail' & -> & Hp)].
      * do 4 right. apply (Hit ct). eapply prefix_of_in; eauto.
      * simpl in Hin. destruct Hin as [<- | [<- | Hin]].
        -- do 4 right. apply (Hit (0%nat, 0)). left. reflexivity.
        -- do 4 right. exists s, l. split; [reflexivity|]. eauto.
        -- apply (prefix_of_in _ _ _ Hp) in Hin.
           destruct Hin as [<- | [<- | []]]; eauto 6.
Qed.

(** X3: the port is bound at most once in an execution. Every [net.Listen]
    in the log is the second action of the main goroutine and asks for
    "tcp" on ":4221"; the server never binds again, whatever the first
    bind returned. *)
Theorem binds_once (env : Env) (sched : list nat) :
  let log := plog (serve env sched) in
  (List.length (filter (fun x => is_listen (snd x)) log) <= 1)%nat /\
  forall i n a l e, In (i, AListen n a l e) log ->
    i = 0%nat /\ n = "tcp" /\ a = ":4221" /\
    nth_error (proj 0 log) 1 = Some (AListen n a l e).
Proof.
  intros log. pose proof (serve_acceptor_trace env sched) as Hg. fold log in Hg.
  assert (Hrole : forall i a, In (i, a) log -> is_listen a = true -> i = 0%nat).
  { intros i a Hin Ha. apply (proj1 (serve_roles env sched i a Hin)).
    destruct a; try discriminate; reflexivity. }
  split.
  - rewrite <- (length_map snd), (filter_log_proj is_listen log Hrole).
    apply acceptor_trace_listens. exact Hg.
  - intros i n a l e Hin.
    assert (i = 0%nat) by (apply (Hrole _ _ Hin); reflexivity). subst i.
    split; auto. apply in_proj in Hin.
    destruct (acceptor_trace_in _ _ Hg Hin)
      as [(s & E) | [(l' & e' & E & Hn) | [(m & E) | [E | (s & l' & _ & [(ct & H) | (c & e' & E)])]]]];
      try discriminate.
    + inversion E; subst. auto.
    + simpl in H. repeat (destruct H as [E | H]; [discriminate|]). contradiction.
Qed.

Lemma binds_once_witness :
  0%nat = 0%nat /\ "tcp" = "tcp" /\ ":4221" = ":4221" /\
  nth_error (proj 0 (plog (serve (env_listen_fails "address already in use")
                             [0; 0; 0; 0]%nat))) 1 =
    Some (AListen "tcp" ":4221" 0%nat (Some "address already in use")).
Proof.
  apply (proj2 (binds_once (env_listen_fails "address already in use")
                  [0; 0; 0; 0]%nat) 0%nat).
  vm_compute. auto 10.
Defined.

(** X4: every accept in the log is made by the main goroutine on the
    listener that the bind returned, and the bind had succeeded: nothing is
    accepted after a failed bind or on any other listener. *)
Theorem accepts_on_bound_listener (env : Env) (sched : list nat) i l c e :
  let log := plog (serve env sched) in
  In (i, AAccept l c e) log ->
  i = 0%nat /\
  exists start, firstn 2 (proj 0 log) = [ANow start; AListen "tcp" ":4221" l None].
Proof.
  intros log Hin. pose proof (serve_acceptor_trace env sched) as Hg. fold log in Hg.
  assert (i = 0%nat) by (apply (proj1 (serve_roles env sched i _ Hin)); reflexivity).
  subst i. split; auto. apply in_proj in Hin.
  destruct (acceptor_trace_in _ _ Hg Hin)
    as [(s & E) | [(l' & e' & E & Hn) | [(m & E) | [E | (s & l' & Hf & [(ct & H) | (c' & e' & E)])]]]];
    try discriminate.
  - simpl in H. destruct H as [E | [E | [E | [E | [E | []]]]]]; try discriminate.
    inversion E; subst. eauto.
  - inversion E; subst. eauto.
Qed.

Lemma accepts_on_bound_listener_witness :
  0%nat = 0%nat /\
  exists start,
    firstn 2 (proj 0 (plog (serve (env_ok []) (repeat 0%nat 8 ++ [1; 1]%nat)))) =
      [ANow start; AListen "tcp" ":4221" 7%nat None].
Proof.
  apply (accepts_on_bound_listener (env_ok []) (repeat 0%nat 8 ++ [1; 1]%nat)
           0%nat 7%nat 3%nat None).
  vm_compute. auto 10.
Defined.

(** ** When nothing fails *)

Lemma astep_calm {env h q a q'} :
  never_fails env -> astep env h q = SAct a q' -> no_fatal q = true ->
  no_fatal q' = true /\ is_failure a = false.
Proof.
  intros (Hl & Ha & Hr) H Hq. astep_cases H; simpl in *; try discriminate;
    rewrite ?Hl, ?Ha, ?Hr; auto.
Qed.

Lemma calm_step env i p :
  never_fails env -> ainv p -> calm p -> calm (step astep PRead env i p).
Proof.
  intros Henv Hinv [Hst Hall]. unfold step. rewrite Hst.
  destruct (nth_error (threads p) i) as [g|] eqn:Hg; [|split; auto].
  assert (Hq : no_fatal (g_code g) = true).
  { rewrite Forall_forall in Hall. apply Hall. eapply nth_error_In; eauto. }
  destruct (inv_shape _ Hinv) as (q0 & hs & Hth & Hm & Hhs & _ & _).
  destruct (astep env (history p) (g_code g)) as [r|q'|a q'|c q'|code] eqn:Hstep.
  - destruct i; [|split; auto].
    exfalso. rewrite Hth in Hg. simpl in Hg. inversion Hg; subst g.
    cbn [g_code] in Hstep. rewrite (astep_done Hstep) in Hm. discriminate.
  - split; auto. cbn [threads]. apply Forall_set_nth; auto. cbn [g_code].
    destruct (astep_silent Hstep) as (s & l & _ & ->). reflexivity.
  - split; auto. cbn [threads]. apply Forall_set_nth; auto. cbn [g_code].
    apply (astep_calm Henv Hstep Hq).
  - split; auto. cbn [threads]. apply Forall_app. split.
    + apply Forall_set_nth; auto. cbn [g_code].
      destruct (astep_spawn Hstep) as (s & l & _ & ->). reflexivity.
    + constructor; auto.
  - destruct (astep_exit Hstep) as (E & _). rewrite E in Hq. discriminate.
Qed.

Lemma arun_calm env sched :
  never_fails env -> forall p, ainv p -> calm p -> calm (arun env sched p).
Proof.
  intros Henv. induction sched as [|i sched IH]; intros p H L; simpl; auto.
  apply IH; [apply ainv_step | apply calm_step]; assumption.
Qed.

Lemma ainit_calm : calm ainit.
Proof. split; auto. constructor; auto. Qed.

(** X5: the server has no way to stop of its own. In an environment in
    which no bind, accept or read fails, the process is still running after
    any number of steps under any scheduling: [main] never returns and no
    goroutine exits. *)
Theorem no_failure_no_exit (env : Env) (sched : list nat) :
  never_fails env -> pstatus (serve env sched) = Running.
Proof.
  intros Henv. destruct (serve_prel env sched) as (_ & -> & _).
  apply (arun_calm env sched Henv ainit ainit_inv ainit_calm).
Qed.

Lemma env_ok_never_fails data : never_fails (env_ok data).
Proof. repeat split. Qed.

Lemma no_failure_no_exit_witness :
  pstatus (serve (env_ok []) (repeat 0%nat 8 ++ [1; 1; 1; 1; 0; 1]%nat)) = Running.
Proof. apply no_failure_no_exit. apply env_ok_never_fails. Defined.

(** ** Why a process has terminated *)

Lemma after_failure_in tr a post :
  after_failure tr = Some (a, post) -> is_failure a = true /\ In a tr.
Proof.
  induction tr as [|b tr IH]; simpl; [discriminate|].
  destruct (is_failure b) eqn:E.
  - intros H. inversion H; subst. auto.
  - intros H. destruct (IH H). auto.
Qed.

Lemma after_failure_keeps tr a : after_failure tr <> None -> after_failure (tr ++ [a]) <> None.
Proof.
  rewrite after_failure_snoc. destruct (after_failure tr) as [[f post]|]; congruence.
Qed.

Lemma einv_step env i p : ainv p -> einv p -> einv (step astep PRead env i p).
Proof.
  intros Hinv He. unfold step.
  destruct (pstatus p) eqn:Hst; [|exact He].
  destruct (nth_error (threads p) i) as [g|] eqn:Hg; [|exact He].
  destruct (inv_shape _ Hinv) as (q0 & hs & Hth & Hm & Hhs & _ & _).
  pose proof (shape_nth Hth Hhs Hg) as Hwho.
  assert (Hold : forall a j code, In (j, AExit code) (plog p) ->
            after_failure (proj j (plog p ++ [(i, a)])) <> None).
  { intros a j code Hin. rewrite proj_snoc. specialize (He j code Hin).
    destruct (Nat.eqb i j); auto. apply after_failure_keeps. exact He. }
  destruct (astep env (history p) (g_code g)) as [r|q'|a q'|c q'|code] eqn:Hstep.
  - destruct i; auto.
  - exact He.
  - intros j code Hin. cbn [plog] in *. apply in_app_or in Hin.
    destruct Hin as [Hin | [E | []]]; [eapply Hold; eauto|].
    inversion E; subst j a. exfalso.
    destruct Hwho as [[-> ->] | (k & c0 & -> & _ & _ & Hp)].
    + destruct (astep_act_main 0%nat Hstep Hm) as (_ & _ & _ & _ & Hx). discriminate.
    + destruct (astep_act_handler (S k) Hstep Hp) as (_ & _ & _ & _ & Hx). discriminate.
  - intros j code Hin. cbn [plog] in *. apply in_app_or in Hin.
    destruct Hin as [Hin | [E | []]]; [eapply Hold; eauto|]. discriminate.
  - intros j code' Hin. cbn [plog] in *. apply in_app_or in Hin.
    destruct Hin as [Hin | [E | []]]; [eapply Hold; eauto|].
    inversion E; subst j code'. rewrite proj_snoc, Nat.eqb_refl.
    apply after_failure_keeps.
    destruct (astep_exit Hstep) as (Hq & _).
    pose proof (inv_fail _ Hinv i g Hg) as Hf. rewrite Hq in Hf. simpl in Hf.
    destruct Hf as (f & [-> | [-> _]]); discriminate.
Qed.

Lemma arun_einv env sched : forall p, ainv p -> einv p -> einv (arun env sched p).
Proof.
  induction sched as [|i sched IH]; intros p H L; simpl; auto.
  apply IH; [apply ainv_step | apply einv_step]; assumption.
Qed.

(** X6: a process that has terminated has done so with status 1 through
    [os.Exit], and the goroutine that exited had met a failure before: a
    failed bind, a failed accept or a failed read is in its part of the
    log. *)
Theorem exit_means_failure (env : Env) (sched : list nat) code :
  let p := serve env sched in
  pstatus p = Terminated code ->
  code = 1 /\
  exists i a pre,
    plog p = pre ++ [(i, AExit 1)] /\ In a (proj i pre) /\ is_failure a = true.
Proof.
  intros p Hc.
  destruct (serve_prel env sched) as (Hlog & Hst & _). fold p in Hlog, Hst.
  pose proof (arun_inv env sched _ ainit_inv) as Hinv.
  assert (He : einv (arun env sched ainit)).
  { apply arun_einv; [apply ainit_inv|]. intros i c []. }
  pose proof (inv_status _ Hinv) as Hs. rewrite <- Hst, Hc in Hs.
  destruct Hs as (-> & i & pre & Hp). split; auto.
  assert (Hin : In (i, AExit 1) (plog (arun env sched ainit))).
  { rewrite Hp. apply in_or_app. right. left. reflexivity. }
  specialize (He i 1 Hin). rewrite Hp, proj_snoc, Nat.eqb_refl in He.
  rewrite after_failure_snoc in He.
  destruct (after_failure (proj i pre)) as [[f post]|] eqn:Haf; [|simpl in He; congruence].
  destruct (after_failure_in _ _ _ Haf) as [Hf Hfin].
  exists i, f, pre. rewrite Hlog. auto.
Qed.

Lemma exit_means_failure_witness :
  1 = 1 /\
  exists i a pre,
    plog (serve (env_read_fails "EOF") (repeat 0%nat 8 ++ [1; 1; 1]%nat)) =
      pre ++ [(i, AExit 1)] /\
    In a (proj i pre) /\ is_failure a = true.
Proof.
  apply (exit_means_failure (env_read_fails "EOF") (repeat 0%nat 8 ++ [1; 1; 1]%nat) 1).
  vm_compute. reflexivity.
Defined.

(** ** A client that is served *)

Lemma step_other env i j (p : process pos) g :
  i <> j -> nth_error (threads p) j = Some g ->
  nth_error (threads (step astep PRead env i p)) j = Some g /\
  proj j (plog (step astep PRead env i p)) = proj j (plog p).
Proof.
  intros Hne Hj. split.
  - unfold step. destruct (pstatus p); auto.
    destruct (nth_error (threads p) i) as [gi|]; auto.
    destruct (astep env (history p) (g_code gi)); cbn [threads]; auto.
    + destruct i; auto.
    + rewrite nth_error_set_nth_neq; auto.
    + rewrite nth_error_set_nth_neq; auto.
    + apply nth_error_app_conn. rewrite nth_error_set_nth_neq; auto.
  - destruct (step_log astep PRead env i p) as [-> | (b & ->)]; auto.
    rewrite proj_snoc. destruct (Nat.eqb i j) eqn:E; auto.
    apply Nat.eqb_eq in E. contradiction.
Qed.

Lemma handler_starts env : forall sched p i g c,
  never_fails env -> ainv p -> linv p -> calm p ->
  nth_error (threads p) i = Some g -> g_conn g = Some c ->
  (4 <= count_occ Nat.eq_dec sched i)%nat ->
  exists r n werr cerr,
    rd_err r = None /\
    proj i (plog (arun env sched p)) =
      [ ARead c 1024 r; ASleep 8000000000;
        AWrite c (bytes_of Server.response) n werr; AClose c cerr ].
Proof.
  induction sched as [|j sched IH]; intros p i g c Henv Hinv Hl Hcalm Hg Hc Hn.
  - simpl in Hn. lia.
  - assert (Hrun : pstatus (arun env (j :: sched) p) = Running).
    { apply (arun_calm env (j :: sched) Henv p Hinv Hcalm). }
    pose proof (Hl _ _ _ Hg Hc) as Hloc.
    destruct (proj i (plog p)) as [|a rest] eqn:Hp.
    + (* the handler has not run yet *)
      destruct (Nat.eq_dec j i) as [->|Hne].
      * rewrite count_occ_cons_eq in Hn by reflexivity.
        destruct (inv_shape _ Hinv) as (q0 & hs & Hth & Hm & Hhs & _ & _).
        destruct (shape_nth Hth Hhs Hg) as [[-> ->] | (k & c0 & -> & _ & Hc0 & Hpos)];
          [discriminate|].
        assert (c0 = c) by congruence. subst c0.
        assert (Hq : g_code g = PRead c).
        { destruct (g_code g); simpl in Hpos, Hloc; try discriminate;
            try (apply Nat.eqb_eq in Hpos; subst; auto).
          - destruct Hloc as (r & e & _ & E & _). discriminate.
          - destruct Hloc as (r & e & _ & [E | E]); discriminate.
          - destruct Hloc as (r & _ & E). discriminate.
          - destruct Hloc as (r & _ & E). discriminate.
          - destruct Hloc as (r & n & e & _ & E). discriminate.
          - destruct Hloc as (r & n & e & ce & _ & E). discriminate. }
        destruct Hcalm as [Hst Hall].
        destruct Henv as (Hel & Hea & Her).
        set (r := env ReadResult (history p) (ConnRead c 1024)).
        assert (Hr : rd_err r = None) by apply Her.
        assert (Hstep : astep env (history p) (g_code g) = SAct (ARead c 1024 r) (PSleep c)).
        { rewrite Hq. simpl. fold r. rewrite Hr. reflexivity. }
        pose proof (step_act astep PRead env (S k) p g _ _ Hst Hg Hstep) as E.
        assert (Hp1 : proj (S k) (plog (step astep PRead env (S k) p)) = [ARead c 1024 r]).
        { rewrite E. cbn [plog]. rewrite proj_snoc, Nat.eqb_refl, Hp. reflexivity. }
        exists r.
        destruct (handler_completes env sched (step astep PRead env (S k) p) (S k) c r []
                    (ainv_step env _ _ Hinv) (linv_step env _ _ Hinv Hl) Hp1 Hr)
          as (n & werr & cerr & Hfin); [simpl; lia | exact Hrun |].
        exists n, werr, cerr. split; auto.
      * rewrite count_occ_cons_neq in Hn by auto.
        destruct (step_other env j i p g Hne Hg) as [Hg' _].
        simpl. eapply IH; eauto.
        -- apply ainv_step; auto.
        -- apply linv_step; auto.
        -- apply calm_step; auto.
    + (* the handler has read *)
      destruct (handler_local_prefix _ _ _ Hloc) as (r & n0 & w0 & c0 & [[Hr Hpre] | (e & Hr & Hpre)]).
      * destruct (prefix_cons_inv _ _ _ _ Hpre) as [-> _].
        destruct (handler_completes env (j :: sched) p i c r rest Hinv Hl Hp Hr)
          as (n & werr & cerr & Hfin); [lia | exact Hrun |].
        exists r, n, werr, cerr. split; auto.
      * (* a failed read puts the goroutine on the way out *)
        exfalso. destruct (prefix_cons_inv _ _ _ _ Hpre) as [-> _].
        pose proof (inv_fail _ Hinv i g Hg) as Hf. rewrite Hp in Hf. simpl in Hf.
        rewrite Hr in Hf.
        destruct Hcalm as [_ Hall]. rewrite Forall_forall in Hall.
        pose proof (Hall g (nth_error_In _ _ Hg)) as Hq.
        destruct (g_code g); simpl in Hf, Hq; discriminate.
Qed.

(** X7: when no bind, accept or read fails, every connection handed to
    [go do(conn)] is served in full once its goroutine has had four turns,
    however those turns are interleaved with the turns of the acceptor and
    of the other handlers: one read of at most 1024 bytes, the sleep of 8
    seconds, one write of the response, the close, and nothing else. *)
Theorem every_client_served (env : Env) (sched sched' : list nat) i g c :
  never_fails env ->
  nth_error (threads (serve env sched)) i = Some g -> g_conn g = Some c ->
  (4 <= count_occ Nat.eq_dec sched' i)%nat ->
  exists r n werr cerr,
    rd_err r = None /\
    proj i (plog (serve env (sched ++ sched'))) =
      [ ARead c 1024 r; ASleep 8000000000;
        AWrite c (bytes_of Server.response) n werr; AClose c cerr ].
Proof.
  intros Henv Hg Hc Hn.
  destruct (serve_prel env (sched ++ sched')) as (-> & _ & _).
  destruct (serve_prel env sched) as (_ & _ & Hth).
  pose proof (Forall2_nth_error _ _ _ i Hth) as Hi. rewrite Hg in Hi.
  destruct (nth_error (threads (arun env sched ainit)) i) as [ag|] eqn:Hag;
    [|contradiction].
  destruct Hi as [E _].
  unfold arun. rewrite run_process_app.
  apply (handler_starts env sched' (arun env sched ainit) i ag c Henv).
  - apply arun_inv, ainit_inv.
  - apply arun_linv; [apply ainit_inv | apply ainit_linv].
  - apply arun_calm; auto; [apply ainit_inv | apply ainit_calm].
  - exact Hag.
  - congruence.
  - exact Hn.
Qed.

Lemma every_client_served_witness :
  exists r n werr cerr,
    rd_err r = None /\
    proj 1 (plog (serve (env_ok []) (repeat 0%nat 8 ++ [1; 0; 1; 1; 0; 1]%nat))) =
      [ ARead 3%nat 1024 r; ASleep 8000000000;
        AWrite 3%nat (bytes_of Server.response) n werr; AClose 3%nat cerr ].
Proof.
  apply (every_client_served (env_ok []) (repeat 0%nat 8) [1; 0; 1; 1; 0; 1]%nat 1%nat
           (handler_for 3%nat) 3%nat).
  - apply env_ok_never_fails.
  - reflexivity.
  - reflexivity.
  - vm_compute. apply le_n.
Defined.

(** ** One failed read and the other clients *)

Lemma failed_read_run (env : Env) p j g c :
  ainv p -> linv p -> pstatus p = Running ->
  nth_error (threads p) j = Some g -> g_conn g = Some c ->
  proj j (plog p) = [] ->
  (forall h, rd_err (env _ h (ConnRead c 1024)) <> None) ->
  exists r m,
    arun env [j; j; j] p =
      mkP (set_nth j (mkG (Some c) PExit) (threads p))
          (plog p ++ [(j, ARead c 1024 r); (j, ALogPrint m); (j, AExit 1)])
          (Terminated 1).
Proof.
  intros Hinv Hl Hst Hg Hc Hp Hfail.
  pose proof (Hl _ _ _ Hg Hc) as Hloc. rewrite Hp in Hloc.
  destruct (inv_shape _ Hinv) as (q0 & hs & Hth & Hm & Hhs & _ & _).
  destruct (shape_nth Hth Hhs Hg) as [[-> ->] | (k & c0 & -> & _ & Hc0 & Hpos)];
    [discriminate|].
  assert (c0 = c) by congruence. subst c0.
  assert (Hq : g_code g = PRead c).
  { destruct (g_code g); simpl in Hpos, Hloc; try discriminate;
      try (apply Nat.eqb_eq in Hpos; subst; auto).
    - destruct Hloc as (r & e & _ & E & _). discriminate.
    - destruct Hloc as (r & e & _ & [E | E]); discriminate.
    - destruct Hloc as (r & _ & E). discriminate.
    - destruct Hloc as (r & _ & E). discriminate.
    - destruct Hloc as (r & n & e & _ & E). discriminate.
    - destruct Hloc as (r & n & e & ce & _ & E). discriminate. }
  set (r := env ReadResult (history p) (ConnRead c 1024)).
  destruct (rd_err r) as [e|] eqn:Hr; [|exfalso; apply (Hfail (history p)); exact Hr].
  exists r, ("error reading from connection: " ++ e)%string.
  unfold arun, run_process. cbn [fold_left].
  erewrite (step_act astep PRead env (S k) p); [| exact Hst | exact Hg |].
  2:{ rewrite Hq. simpl. fold r. rewrite Hr. reflexivity. }
  erewrite (step_act astep PRead env (S k) (mkP _ _ _)); [| reflexivity | |].
  2:{ cbn [threads]. eapply nth_error_set_nth_eq. exact Hg. }
  2:{ reflexivity. }
  cbn [threads plog g_conn].
  unfold step. cbn [pstatus threads plog g_code g_conn].
  assert (Hset : forall (l : list (goroutine pos)) i x y,
            set_nth i y (set_nth i x l) = set_nth i y l).
  { induction l as [|z l IH]; intros [|i] x y; simpl; auto. rewrite IH. reflexivity. }
  rewrite Hset.
  erewrite nth_error_set_nth_eq by exact Hg. cbn [g_code astep].
  rewrite Hc. rewrite <- !app_assoc. reflexivity.
Qed.

(** X8: one connection whose read fails ends the service of all the others.
    From any running state in which a handler has not run yet and the read
    of its connection fails, three turns of that handler terminate the
    process with status 1, and from then on the part of the log of every
    other goroutine stays as it was: a request in flight is never
    answered. *)
Theorem failed_read_cuts_others_short (env : Env) (sched rest : list nat) j g c :
  let p := serve env sched in
  pstatus p = Running ->
  nth_error (threads p) j = Some g -> g_conn g = Some c ->
  proj j (plog p) = [] ->
  (forall h, rd_err (env _ h (ConnRead c 1024)) <> None) ->
  let p' := serve env (sched ++ [j; j; j] ++ rest) in
  pstatus p' = Terminated 1 /\
  forall i, i <> j -> proj i (plog p') = proj i (plog p).
Proof.
  intros p Hst Hg Hc Hp Hfail p'.
  destruct (serve_prel env sched) as (Hlog & Hs & Hth). fold p in Hlog, Hs, Hth.
  destruct (serve_prel env (sched ++ [j; j; j] ++ rest)) as (Hlog' & Hs' & _).
  fold p' in Hlog', Hs'.
  pose proof (Forall2_nth_error _ _ _ j Hth) as Hj. rewrite Hg in Hj.
  destruct (nth_error (threads (arun env sched ainit)) j) as [ag|] eqn:Hag;
    [|contradiction].
  destruct Hj as [E _].
  destruct (failed_read_run env (arun env sched ainit) j ag c) as (r & m & Hrun); auto.
  - apply arun_inv, ainit_inv.
  - apply arun_linv; [apply ainit_inv | apply ainit_linv].
  - congruence.
  - congruence.
  - rewrite <- Hlog. exact Hp.
  - assert (Hfin : arun env (sched ++ [j; j; j] ++ rest) ainit =
                   arun env [j; j; j] (arun env sched ainit)).
    { unfold arun. rewrite !run_process_app.
      apply run_process_terminated with (code := 1). fold (arun env sched ainit).
      fold (arun env [j; j; j] (arun env sched ainit)). rewrite Hrun. reflexivity. }
    rewrite Hs', Hlog', Hfin, Hrun. cbn [pstatus plog]. split; auto.
    intros i Hne. rewrite proj_app, Hlog.
    rewrite (proj_none i [_; _; _]); [apply app_nil_r|].
    intros a [H | [H | [H | []]]]; inversion H; subst; contradiction.
Qed.

Lemma failed_read_cuts_others_short_witness :
  let env := env_read_fails_on 8%nat "EOF" in
  let sched := (repeat 0%nat 14 ++ [1; 1]%nat) in
  let p := serve env sched in
  let p' := serve env (sched ++ [2; 2; 2]%nat ++ [1; 1; 0]%nat) in
  proj 1 (plog p) = [ARead 3%nat 1024 (mkRead [] None); ASleep 8000000000] /\
  pstatus p' = Terminated 1 /\
  proj 1 (plog p') = proj 1 (plog p).
Proof.
  intros env sched p p'. split; [reflexivity|].
  destruct (failed_read_cuts_others_short env sched [1; 1; 0]%nat 2%nat
              (handler_for 8%nat) 8%nat) as [H1 H2].
  - reflexivity.
  - reflexivity.
  - reflexivity.
  - reflexivity.
  - intros h. simpl. discriminate.
  - split; [exact H1|]. apply H2. discriminate.
Defined.

(** * Properties of the sequential programs *)

(** ** Programs in sequence *)

Lemma run_bind {E : Type -> Type} {A R S} (record : forall T, E T -> T -> A)
  (o : Prog.oracle) (p : Prog.prog E R) (f : R -> Prog.prog E S) : forall h,
  Prog.run record o h (Prog.bind p f) =
    let (tr1, r) := Prog.run record o h p in
    let (tr2, s) := Prog.run record o (h ++ tr1) (f r) in
    (tr1 ++ tr2, s).
Proof.
  induction p as [r|T e k IH]; intros h; simpl.
  - rewrite app_nil_r. destruct (Prog.run record o h (f r)). reflexivity.
  - rewrite IH.
    destruct (Prog.run record o (h ++ [record T e (o T h e)]) (k (o T h e))) as [tr1 r].
    rewrite <- app_assoc. simpl.
    destruct (Prog.run record o _ (f r)) as [tr2 s]. reflexivity.
Qed.

(** ** The client *)

Section ClientFacts.

Import Prog Client.

Lemma client_paths (o : oracle (E := clientE)) :
  client_path (fst (client_run o)) (snd (client_run o)).
Proof.
  unfold client_run, main, func, main_body. cbn.
  destruct (o _ [] (NewRequestWithContext MethodGet url)) as [req [e|]]; cbn.
  - constructor.
  - match goal with |- context [o ?T ?h (ClientDo ?c ?r)] =>
      destruct (o T h (ClientDo c r)) as [res [e|]] end; cbn.
    + constructor.
    + destruct (StatusCode res =? StatusOK) eqn:Hs; cbn.
      * apply Z.eqb_eq in Hs.
        match goal with |- context [o ?T ?h (JsonDecode ?b)] =>
          destruct (o T h (JsonDecode b)) as [d [e|]] end; cbn.
        -- apply path_bad_body; auto.
        -- apply path_ok; auto.
      * apply Z.eqb_neq in Hs. apply path_bad_status; auto.
Qed.

(** X9: the body of the response is closed exactly when a response was
    received. In every run of the client, the bodies closed are the bodies
    of the responses that [client.Do] returned without error, at most one;
    and a close is the last call of the run, so that the deferred
    [res.Body.Close()] also runs on the two panics that follow a received
    response and never when the request or the exchange failed. *)
Theorem body_closed_once (o : oracle (E := clientE)) :
  let tr := fst (client_run o) in
  closed tr = map res_body (received tr) /\
  (List.length (closed tr) <= 1)%nat /\
  forall b e, In (CClose b e) tr -> exists pre, tr = pre ++ [CClose b e].
Proof.
  intros tr. subst tr. destruct (client_paths o); simpl; repeat split; auto;
    intros b e' Hin; simpl in Hin;
    repeat (destruct Hin as [Hin | Hin]; [try discriminate|]); try contradiction;
    inversion Hin; subst;
    first [ eexists [_; _]; reflexivity | eexists [_; _; _]; reflexivity
          | eexists [_; _; _; _]; reflexivity ].
Qed.

(** X10: the client prints only on full success. When [main] returns
    normally, one response was received, its status code is 200, its body
    was decoded without error and the one thing printed is the decoded
    value; when [main] panics, nothing was printed. *)
Theorem prints_what_it_decoded (o : oracle (E := clientE)) :
  let tr := fst (client_run o) in
  match snd (client_run o) with
  | Normal =>
      exists res d,
        received tr = [res] /\ StatusCode res = StatusOK /\
        decoded tr = [(d, None)] /\ printed tr = [d]
  | Panicking _ => printed tr = []
  end.
Proof.
  intros tr. subst tr. destruct (client_paths o); simpl; eauto 8.
Qed.

(** X11: [main] stops at the first failure. A panic with an error value
    carries the error of the call that failed, no earlier call had failed,
    and nothing was called after it but the deferred close. A panic with a
    string happens for a response whose status code is not 200, reports
    the status text of that response, and nothing was decoded. A normal
    return means no call returned an error. *)
Theorem panic_is_first_failure (o : oracle (E := clientE)) :
  let tr := fst (client_run o) in
  match snd (client_run o) with
  | Normal => forall a, In a tr -> call_err a = None
  | Panicking (PanicError e) =>
      exists pre a post,
        tr = pre ++ a :: post /\ call_err a = Some e /\
        (forall b, In b pre -> call_err b = None) /\
        (post = [] \/ exists bd ce, post = [CClose bd ce])
  | Panicking (PanicString s) =>
      exists res,
        received tr = [res] /\ StatusCode res <> StatusOK /\
        s = ("unexpected status: got " ++ Status res)%string /\
        decoded tr = [] /\ forall a, In a tr -> call_err a = None
  end.
Proof.
  intros tr. subst tr. destruct (client_paths o); simpl.
  - exists [], (CNewRequest MethodGet url req (Some e)), []. simpl. intuition.
  - eexists [_], _, []. simpl. repeat split; auto.
    intros b [<- | []]. reflexivity.
  - exists res. repeat split; auto.
    intros a [<- | [<- | [<- | []]]]; reflexivity.
  - eexists [_; _], _, [_]. simpl. repeat split; eauto.
    intros b [<- | [<- | []]]; reflexivity.
  - intros a [<- | [<- | [<- | [<- | [<- | []]]]]]; reflexivity.
Qed.

(** X12: the client sends at most one request and never retries. When a
    request is sent, it is the one [http.NewRequestWithContext] returned
    for a GET of the fixed URL, with the header [X-My-Client: LearninGo]
    added last, through a client whose timeout is 10 seconds. *)
Theorem sends_one_request (o : oracle (E := clientE)) :
  let tr := fst (client_run o) in
  sent tr = [] \/
  exists req0,
    hd_error tr = Some (CNewRequest MethodGet url req0 None) /\
    sent tr = [(mkClient 10000000000, header_add "X-My-Client" "LearninGo" req0)].
Proof.
  intros tr. subst tr. destruct (client_paths o); simpl; eauto.
Qed.

End ClientFacts.

(** ** The decorator *)

Section DecoratorFacts.

Import Prog Decorator.

(** X13: whatever implementation of [DB] is decorated, the function that
    [myFunction] returns first prints its argument and then does exactly
    what [StoreToDB] does for the same argument, once; it returns normally
    whatever error [StoreToDB] returned, so a failed store is never
    reported. With the [Store] of the program, whose [StoreToDB] prints
    "Stored to DB" and the value, [Execute] makes [main] print the line
    "FOO BAR BAZ" and then "Stored to DB" with the same text. *)
Theorem decorator_prints_then_stores {S} `{DB S} (db : S) (o : oracle (E := ioE)) h s :
  run line_of o h (myFunction db s) =
    ([s] :: output o (h ++ [[s]]) (StoreToDB db s), tt) /\
  output o h (myFunction mkStore s) = [[s]; ["Stored to DB"; s]] /\
  output o h main = [["FOO BAR BAZ"]; ["Stored to DB"; "FOO BAR BAZ"]].
Proof.
  split; [|split; reflexivity].
  unfold output, myFunction. simpl.
  rewrite run_bind.
  destruct (run line_of o (h ++ [[s]]) (StoreToDB db s)) as [tr1 r]. simpl.
  rewrite app_nil_r. reflexivity.
Qed.

End DecoratorFacts.

(** ** The handlers *)

Section WebFacts.

Import Prog Web.

(** X14: each of the five handlers that [main] registers answers every
    request exactly once. Whatever the request, the last call on the
    response writer is the one that starts the response ([w.Write],
    [http.Error] or [http.NotFound]), there is no other such call, and all
    the headers are set before it. *)
Theorem handlers_respond_once (o : oracle (E := respE)) pattern h r :
  In (pattern, h) routes ->
  exists pre c,
    serve_request o h r = pre ++ [c] /\
    commits c = true /\ forallb (fun x => negb (commits x)) pre = true.
Proof.
  unfold routes. intros Hin. simpl in Hin.
  repeat (destruct Hin as [Hin | Hin]; [inversion Hin; subst; clear Hin|]);
    try contradiction; unfold serve_request.
  - unfold home_ServeHTTP. destruct (negb (Path r =? "/")%string); simpl.
    + exists [], WNotFound. auto.
    + eexists [], _. simpl. auto.
  - unfold user. simpl. eexists [_], _. simpl. auto.
  - unfold handleUserById. destruct (negb (Method r =? "GET")%string); simpl.
    + eexists [_], _. simpl. auto.
    + eexists [], _. simpl. auto.
  - unfold posts. simpl. eexists [], _. simpl. auto.
  - unfold handlePostCreate. destruct (negb (Method r =? "POST")%string); simpl.
    + eexists [_], _. simpl. auto.
    + eexists [], _. simpl. auto.
Qed.

Lemma handlers_respond_once_witness :
  exists pre c,
    serve_request (fun T h e => match e in respE T return T with
                                | Write b => (String.length b, None)
                                | _ => tt
                                end)
      handlePostCreate (mkRequest "DELETE" "/posts/create" (fun _ => "")) = pre ++ [c] /\
    commits c = true /\ forallb (fun x => negb (commits x)) pre = true.
Proof.
  apply (handlers_respond_once _ "POST /posts/create").
  simpl. auto 10.
Defined.

(** X15: the two handlers that check the method compare it exactly. For
    any method other than "GET", [handleUserById] sets [Allow: GET] and
    then answers 405 with "Method not Allowed" without looking at the
    path, and likewise [handlePostCreate] with "POST"; for the right
    method the one call is the write of the body, which for
    [handleUserById] is "Hello user " followed by the path value [id] as
    it is. *)
Theorem wrong_method_is_refused (o : oracle (E := respE)) r :
  (Method r <> "GET" ->
   serve_request o handleUserById r =
     [WHeaderSet "Allow" "GET"; WError "Method not Allowed" 405]) /\
  (Method r <> "POST" ->
   serve_request o handlePostCreate r =
     [WHeaderSet "Allow" "POST"; WError "Method not Allowed" 405]) /\
  (Method r = "GET" ->
   exists n e, serve_request o handleUserById r =
     [WWrite ("Hello user " ++ PathValue r "id") n e]) /\
  (Method r = "POST" ->
   exists n e, serve_request o handlePostCreate r =
     [WWrite "You can create new posts here!" n e]).
Proof.
  unfold serve_request, handleUserById, handlePostCreate.
  repeat split.
  - intros H. apply String.eqb_neq in H. rewrite H. reflexivity.
  - intros H. apply String.eqb_neq in H. rewrite H. reflexivity.
  - intros ->. simpl. eauto.
  - intros ->. simpl. eauto.
Qed.

End WebFacts.
